(** * BkperAuth: the authentication client of [packages/auth/src/bkper-auth.ts]

    A shallow embedding of the [BkperAuth] class and the properties of its
    token life cycle, notifications and redirect URLs.

    Conventions of the model.
    - Strings are byte strings: a JavaScript string is represented by the
      UTF-8 encoding of its (well-formed) code points, the encoding that
      [encodeURIComponent] and [URLSearchParams] work on.
    - The browser collaborators are explicit: the cookie jar is a finite map,
      [self.location.href] is a parameter, [self.location.assign], [fetch] and
      the host's callbacks leave events in a trace, and the answer of the
      network to a [fetch] is a parameter of the operation that issues it.
    - A promise chain that has settled is a computation in a state and
      exception monad: a rejection is a [Throw], [.then] is [bind] and
      [.catch] is [try_catch]. *)

From Stdlib Require Import ZArith NArith Ascii String List Lia.
From stdpp Require Import base option strings list gmap.

Local Open Scope Z_scope.

(** ** Strings and the two URL encodings of the platform *)

Module Uri.

Definition code (c : ascii) : N := N_of_ascii c.

Definition between (lo hi n : N) : bool := ((lo <=? n) && (n <=? hi))%N.

Definition isAsciiAlphanumeric (c : ascii) : bool :=
  between 48 57 (code c) || between 65 90 (code c) || between 97 122 (code c).

Fixpoint mem_ascii (c : ascii) (s : string) : bool :=
  match s with
  | EmptyString => false
  | String d s' => if decide (c = d) then true else mem_ascii c s'
  end.

(** ECMAScript, [encodeURIComponent]: the unreserved set is the
    alphanumerics and the marks [- _ . ! ~ * ' ( )]. *)
Definition uriUnreserved (c : ascii) : bool :=
  isAsciiAlphanumeric c || mem_ascii c "-_.!~*'()".

(** URL standard, application/x-www-form-urlencoded: the bytes left as they
    are; a space becomes [+]. *)
Definition formUnreserved (c : ascii) : bool :=
  isAsciiAlphanumeric c || mem_ascii c "*-._".

Definition hexDigit (n : N) : ascii :=
  if (n <? 10)%N then ascii_of_N (48 + n) else ascii_of_N (55 + n).

Definition percentEncode (c : ascii) : string :=
  String "%" (String (hexDigit (code c / 16)) (String (hexDigit (code c mod 16)) EmptyString)).

Fixpoint encodeURIComponent (s : string) : string :=
  match s with
  | EmptyString => EmptyString
  | String c s' =>
      (if uriUnreserved c then String c EmptyString else percentEncode c)
        +:+ encodeURIComponent s'
  end.

Fixpoint formEncode (s : string) : string :=
  match s with
  | EmptyString => EmptyString
  | String c s' =>
      (if formUnreserved c then String c EmptyString
       else if decide (c = " "%char) then "+" else percentEncode c)
        +:+ formEncode s'
  end.

(** [new URLSearchParams(record).toString()]: the entries of the record in
    property order, each as [name=value], joined with [&]. *)
Fixpoint serialize (entries : list (string * string)) : string :=
  match entries with
  | [] => ""
  | (k, v) :: rest =>
      formEncode k +:+ "=" +:+ formEncode v +:+
      match rest with
      | [] => ""
      | _ :: _ => "&" +:+ serialize rest
      end
  end.

End Uri.

(** ** JavaScript values, exceptions and the observable events *)

(** What [response.json()] can produce, and [undefined]. Numbers are the
    integral ones; only their being zero or not is ever looked at. *)
#[local] Set Warnings "-register-all".
Inductive value : Type :=
| VUndefined
| VNull
| VBool (b : bool)
| VNum (n : Z)
| VStr (s : string)
| VArr (items : list value)
| VObj (props : list (string * value)).

#[local] Set Warnings "register-all".

(** ToBoolean, the test of [if (v)] and of [a && b]. *)
Definition truthy (v : value) : bool :=
  match v with
  | VUndefined | VNull => false
  | VBool b => b
  | VNum n => negb (n =? 0)
  | VStr s => negb (bool_decide (s = ""))
  | VArr _ | VObj _ => true
  end.

(** A thrown value: an error object with its [name] and [message]. *)
Inductive exn : Type := Exn (name message : string).

Definition Error (message : string) : exn := Exn "Error" message.
Definition TypeError (message : string) : exn := Exn "TypeError" message.

Inductive completion (A : Type) : Type :=
| Normal (a : A)
| Throw (e : exn).
Arguments Normal {A} a.
Arguments Throw {A} e.

Fixpoint ownProperty (props : list (string * value)) (key : string) : option value :=
  match props with
  | [] => None
  | (k, v) :: rest => if decide (k = key) then Some v else ownProperty rest key
  end.

(** [data.accessToken] for a parsed JSON value [data]: a TypeError on [null]
    and [undefined], the own property of an object, and [undefined] for
    everything else (no primitive wrapper or array has a property of that
    name). *)
Definition member_accessToken (data : value) : completion value :=
  match data with
  | VUndefined | VNull =>
      Throw (TypeError "Cannot read properties of null (reading 'accessToken')")
  | VObj props => Normal (default VUndefined (ownProperty props "accessToken"))
  | _ => Normal VUndefined
  end.

(** The answer of the network to one [fetch]. *)
Inductive body : Type :=
| BodyInvalid (e : exn)      (* response.json() rejects *)
| BodyJson (data : value).   (* response.json() resolves with data *)

Record Response : Type := {
  status : Z;
  statusText : string;
  json : body;
}.

Inductive fetch_outcome : Type :=
| FetchRejects (e : exn)
| FetchResolves (response : Response).

Inductive event : Type :=
| EvFetch (url method credentials : string)
| EvAssign (url : string)          (* self.location.assign(url) *)
| EvLoginSuccess
| EvLoginRequired
| EvLogout
| EvTokenRefresh (token : value)
| EvError (error : exn).

(** ** Configuration and instance *)

(** A host callback is known by what it does to its caller: it returns
    ([None]) or throws ([Some e]). *)
Definition callback (A : Type) : Type := A -> option exn.

(** Modelled from the spec: [./types] (the declaration of [BkperAuthConfig])
    is not among the sources; the fields are those of the configuration
    surface: [baseUrl], [onLoginSuccess()], [onLoginRequired()], [onLogout()],
    [onTokenRefresh(token)], [onError(error)] and
    [getAdditionalAuthParams() -> mapping<string,string>], all optional. The
    mapping is the list of its entries in property order, the order of
    [Object.entries] and of [new URLSearchParams(record)]. *)
Record BkperAuthConfig : Type := {
  baseUrl : option string;
  onLoginSuccess : option (callback unit);
  onLoginRequired : option (callback unit);
  onLogout : option (callback unit);
  onTokenRefresh : option (callback value);
  onError : option (callback exn);
  getAdditionalAuthParams : option (unit -> list (string * string));
}.

Definition DEFAULT_BASE_URL : string := "https://bkper.app".
Definition ALREADY_LOGGED_COOKIE : string := "already-logged".

Definition AUTH_LOGIN_PATH : string := "/auth/login".
Definition AUTH_REFRESH_PATH : string := "/auth/refresh".
Definition AUTH_LOGOUT_PATH : string := "/auth/logout".

Record BkperAuth : Type := {
  config : BkperAuthConfig;
  this_baseUrl : string;
  accessToken : value;
}.

(** [config.baseUrl || DEFAULT_BASE_URL]: an empty string is falsy too. *)
Definition constructor (cfg : BkperAuthConfig) : BkperAuth :=
  {| config := cfg;
     this_baseUrl :=
       match baseUrl cfg with
       | Some u => if bool_decide (u = "") then DEFAULT_BASE_URL else u
       | None => DEFAULT_BASE_URL
       end;
     accessToken := VUndefined |}.

(** The page: the instance, the cookie jar, [self.location.href] and what has
    been observed so far, oldest first. *)
Record state : Type := {
  this : BkperAuth;
  cookies : gmap string string;
  href : string;
  trace : list event;
}.

Definition fresh (cfg : BkperAuthConfig) (location : string) : state :=
  {| this := constructor cfg; cookies := ∅; href := location; trace := [] |}.

(** ** The monad of settled computations *)

Definition M (A : Type) : Type := state -> completion A * state.

#[global] Instance M_ret : MRet M := λ A a st, (Normal a, st).

#[global] Instance M_bind : MBind M := λ A B f m st,
  match m st with
  | (Normal a, st') => f a st'
  | (Throw e, st') => (Throw e, st')
  end.

Definition throw {A : Type} (e : exn) : M A := λ st, (Throw e, st).

Definition try_catch {A : Type} (m : M A) (handler : exn -> M A) : M A := λ st,
  match m st with
  | (Normal a, st') => (Normal a, st')
  | (Throw e, st') => handler e st'
  end.

Definition gets {A : Type} (f : state -> A) : M A := λ st, (Normal (f st), st).

Definition lift {A : Type} (c : completion A) : M A := λ st, (c, st).

(** The three ways the page changes. *)
Definition log (ev : event) (st : state) : state :=
  {| this := this st; cookies := cookies st; href := href st; trace := trace st ++ [ev] |}.

Definition store_token (v : value) (st : state) : state :=
  {| this := {| config := config (this st); this_baseUrl := this_baseUrl (this st);
                accessToken := v |};
     cookies := cookies st; href := href st; trace := trace st |}.

Definition store_cookie (name v : string) (st : state) : state :=
  {| this := this st; cookies := <[name := v]> (cookies st); href := href st;
     trace := trace st |}.

Definition emit (ev : event) : M unit := λ st, (Normal tt, log ev st).

(** [this.accessToken = v] *)
Definition set_accessToken (v : value) : M unit := λ st, (Normal tt, store_token v st).

(** [Cookies.set(name, value)] and [Cookies.get(name)] of js-cookie. *)
Definition Cookies_set (name v : string) : M unit := λ st, (Normal tt, store_cookie name v st).

Definition Cookies_get (name : string) : M (option string) :=
  gets (λ st, cookies st !! name).

(** A call of a configured callback: it is observed, then it returns or
    throws. *)
Definition call {A : Type} (ev : event) (cb : callback A) (a : A) : M unit :=
  emit ev ;;
  match cb a with
  | Some e => throw e
  | None => mret tt
  end.

(** [fetch(url, { method: 'POST', credentials: 'include' })], answered by
    [net]. *)
Definition fetch (url : string) (net : fetch_outcome) : M Response :=
  emit (EvFetch url "POST" "include") ;;
  match net with
  | FetchRejects e => throw e
  | FetchResolves response => mret response
  end.

(** [response.json()] *)
Definition response_json (response : Response) : M value :=
  match json response with
  | BodyInvalid e => throw e
  | BodyJson data => mret data
  end.

(** [self.location?.assign(url)]: [self.location] is there, as its type
    [Location] says, and [assign] is observed, not followed. *)
Definition location_assign (url : string) : M unit := emit (EvAssign url).

(** ** The methods of [BkperAuth] *)

Definition getAccessToken : M value := gets (λ st, accessToken (this st)).

(** [Cookies.get(ALREADY_LOGGED_COOKIE) != null] *)
Definition hasLoggedInBefore : M bool :=
  c ← Cookies_get ALREADY_LOGGED_COOKIE ;
  mret (match c with Some _ => true | None => false end).

(** The loop of [getLoginUrl]: [loginUrl += `&${key}=${encodeURIComponent(value)}`]. *)
Definition appendParam (loginUrl : string) (entry : string * string) : string :=
  loginUrl +:+ "&" +:+ entry.1 +:+ "=" +:+ Uri.encodeURIComponent entry.2.

Definition getLoginUrl (self : BkperAuth) (location : string) : string :=
  let returnUrl := Uri.encodeURIComponent location in
  let loginUrl := this_baseUrl self +:+ AUTH_LOGIN_PATH +:+ "?returnUrl=" +:+ returnUrl in
  match getAdditionalAuthParams (config self) with
  | Some provider =>
      let additionalParams := provider tt in
      fold_left appendParam additionalParams loginUrl
  | None => loginUrl
  end.

Definition getRefreshUrl (self : BkperAuth) : string :=
  let refreshUrl := this_baseUrl self +:+ AUTH_REFRESH_PATH in
  match getAdditionalAuthParams (config self) with
  | Some provider =>
      let additionalParams := provider tt in
      let queryString := Uri.serialize additionalParams in
      if bool_decide (queryString = "") then refreshUrl
      else refreshUrl +:+ "?" +:+ queryString
  | None => refreshUrl
  end.

Definition getLogoutUrl (self : BkperAuth) : string :=
  this_baseUrl self +:+ AUTH_LOGOUT_PATH.

(** The handler of the fetched response, the first [.then] of [refresh]. *)
Definition onResponse (response : Response) : M unit :=
  if status response =? 200 then
    data ← response_json response ;
    token ← lift (member_accessToken data) ;
    set_accessToken token ;;
    Cookies_set ALREADY_LOGGED_COOKIE "true" ;;
    self ← gets this ;
    match onTokenRefresh (config self) with
    | Some cb =>
        if truthy (accessToken self)
        then call (EvTokenRefresh (accessToken self)) cb (accessToken self)
        else mret tt
    | None => mret tt
    end
  else if status response =? 401 then
    set_accessToken VUndefined
  else
    throw (Error (statusText response)).

Definition refresh (net : fetch_outcome) : M unit :=
  url ← gets (λ st, getRefreshUrl (this st)) ;
  try_catch
    (response ← fetch url net ; onResponse response)
    (λ error, set_accessToken VUndefined ;; throw error).

Definition checkAccessToken : M unit :=
  self ← gets this ;
  if truthy (accessToken self) then
    match onLoginSuccess (config self) with
    | Some cb => call EvLoginSuccess cb tt
    | None => mret tt
    end
  else
    match onLoginRequired (config self) with
    | Some cb => call EvLoginRequired cb tt
    | None => mret tt
    end.

Definition init (net : fetch_outcome) : M unit :=
  try_catch
    (refresh net ;; checkAccessToken)
    (λ error,
      self ← gets this ;
      match onError (config self) with
      | Some cb => call (EvError error) cb error
      | None => mret tt
      end).

Definition login : M unit :=
  loginUrl ← gets (λ st, getLoginUrl (this st) (href st)) ;
  location_assign loginUrl.

Definition logout : M unit :=
  self ← gets this ;
  match onLogout (config self) with
  | Some cb => call EvLogout cb tt
  | None => mret tt
  end ;;
  logoutUrl ← gets (λ st, getLogoutUrl (this st)) ;
  location_assign logoutUrl.

(** ** Sessions: sequences of calls made by the host *)

Inductive op : Type :=
| OpGetAccessToken
| OpHasLoggedInBefore
| OpInit (net : fetch_outcome)
| OpRefresh (net : fetch_outcome)
| OpLogin
| OpLogout.

(** One call; what it returns or throws is the host's business, the session
    goes on from the state it leaves. *)
Definition step (st : state) (o : op) : state :=
  match o with
  | OpGetAccessToken => (getAccessToken st).2
  | OpHasLoggedInBefore => (hasLoggedInBefore st).2
  | OpInit net => (init net st).2
  | OpRefresh net => (refresh net st).2
  | OpLogin => (login st).2
  | OpLogout => (logout st).2
  end.

Definition run (st : state) (ops : list op) : state := fold_left step ops st.

(** ** Vocabulary of the statements *)

(** The page once the refresh request has been issued. *)
Definition fetched (st : state) : state :=
  log (EvFetch (getRefreshUrl (this st)) "POST" "include") st.

(** The state once a token has been read from a 200 response. *)
Definition granted (token : value) (st : state) : state :=
  store_cookie ALREADY_LOGGED_COOKIE "true" (store_token token (fetched st)).


(** A body from which [data.accessToken] can be read: it parses, and not to
    [null]. *)
Definition readable (b : body) : Prop :=
  ∃ data token, b = BodyJson data ∧ member_accessToken data = Normal token.

(** [refresh] completed with HTTP 200: that response came and the call
    resolved. *)
Definition completed_200 (net : fetch_outcome) (r : completion unit * state) : Prop :=
  ∃ response, net = FetchResolves response ∧ status response = 200 ∧ r.1 = Normal tt.

(** The events of one call of an optional callback. *)
Definition notified {A : Type} (cb : option (callback A)) (ev : event) : list event :=
  match cb with
  | Some _ => [ev]
  | None => []
  end.

(** ** Sample hosts and answers *)

Definition returns {A : Type} : callback A := λ _, None.
Definition throws {A : Type} (e : exn) : callback A := λ _, Some e.

Definition silent : BkperAuthConfig :=
  {| baseUrl := None; onLoginSuccess := None; onLoginRequired := None; onLogout := None;
     onTokenRefresh := None; onError := None; getAdditionalAuthParams := None |}.

Definition listening : BkperAuthConfig :=
  {| baseUrl := None; onLoginSuccess := Some returns; onLoginRequired := Some returns;
     onLogout := Some returns; onTokenRefresh := Some returns; onError := Some returns;
     getAdditionalAuthParams := None |}.

Definition tenant_acme : BkperAuthConfig :=
  {| baseUrl := Some "https://auth.example"; onLoginSuccess := Some returns;
     onLoginRequired := Some returns; onLogout := Some returns;
     onTokenRefresh := Some returns; onError := Some returns;
     getAdditionalAuthParams := Some (λ _, [("tenant", "acme")]) |}.

Definition app_href : string := "http://localhost:3000/app".

Definition answer (code : Z) (text : string) (b : body) : fetch_outcome :=
  FetchResolves {| status := code; statusText := text; json := b |}.

Definition ok_token (token : value) : fetch_outcome :=
  answer 200 "OK" (BodyJson (VObj [("accessToken", token)])).

(** The [catch] block of [init], run on the page [st]. *)
Definition report (error : exn) (st : state) : completion unit * state :=
  match onError (config (this st)) with
  | Some cb => call (EvError error) cb error st
  | None => (Normal tt, st)
  end.

(** The events a call has added to the trace of [st]. *)
Definition since (st st' : state) : list event := drop (length (trace st)) (trace st').

Definition is_login (ev : event) : bool :=
  match ev with
  | EvLoginSuccess | EvLoginRequired => true
  | _ => false
  end.

(** The login-succeeded and login-required notifications among some events. *)
Definition logins (evs : list event) : list event := List.filter is_login evs.

(** What no method changes: the configuration, the base URL, the location. *)
Definition same_host (st st' : state) : Prop :=
  config (this st') = config (this st) ∧
  this_baseUrl (this st') = this_baseUrl (this st) ∧
  href st' = href st.

Definition boom : exn := Error "callback failed".

Definition failing_success : BkperAuthConfig :=
  {| baseUrl := None; onLoginSuccess := Some (throws boom); onLoginRequired := Some returns;
     onLogout := Some returns; onTokenRefresh := Some returns; onError := Some returns;
     getAdditionalAuthParams := None |}.

Definition failing_error : BkperAuthConfig :=
  {| baseUrl := None; onLoginSuccess := Some returns; onLoginRequired := Some returns;
     onLogout := Some returns; onTokenRefresh := Some returns; onError := Some (throws boom);
     getAdditionalAuthParams := None |}.

(** Every character of a string passes a test. *)
Fixpoint all_ascii (p : ascii → bool) (s : string) : bool :=
  match s with
  | EmptyString => true
  | String c s' => p c && all_ascii p s'
  end.

(** What an encoded component is made of: unreserved characters and the
    escapes, so none of the separators [& = ? #] of a query. *)
Definition component_char (c : ascii) : bool :=
  Uri.uriUnreserved c || bool_decide (c = "%"%char).

(** The extra parameters of the host, none without a provider. *)
Definition extra_params (self : BkperAuth) : list (string * string) :=
  match getAdditionalAuthParams (config self) with
  | Some provider => provider tt
  | None => []
  end.

(** The login URL in the words of the specification: after the [returnUrl]
    parameter, one [&key=value] pair per entry, each value encoded on its
    own. *)
Fixpoint query_pairs (entries : list (string * string)) : string :=
  match entries with
  | [] => ""
  | (k, v) :: rest => "&" +:+ k +:+ "=" +:+ Uri.encodeURIComponent v +:+ query_pairs rest
  end.

Definition login_redirect (self : BkperAuth) (location : string) : string :=
  this_baseUrl self +:+ "/auth/login" +:+ "?returnUrl=" +:+ Uri.encodeURIComponent location
    +:+ query_pairs (extra_params self).

(** The answer is a 200 whose body gives a value for [data.accessToken]. *)
Definition grants (net : fetch_outcome) : bool :=
  match net with
  | FetchRejects _ => false
  | FetchResolves response =>
      (status response =? 200) &&
      match json response with
      | BodyInvalid _ => false
      | BodyJson data =>
          match member_accessToken data with
          | Normal _ => true
          | Throw _ => false
          end
      end
  end.

Definition op_grants (o : op) : bool :=
  match o with
  | OpInit net | OpRefresh net => grants net
  | _ => false
  end.

(** ** Vocabulary of the further properties *)

(** The ways [refresh] can leave the page [st]: the token cleared (a 401 or
    a failure), a token granted without notification, granted and notified,
    or granted and then cleared because the notified callback threw. *)
Inductive settled (st : state) : completion unit * state → Prop :=
| settled_cleared c :
    settled st (c, store_token VUndefined (fetched st))
| settled_granted token :
    onTokenRefresh (config (this st)) = None ∨ truthy token = false →
    settled st (Normal tt, granted token st)
| settled_notified token cb :
    onTokenRefresh (config (this st)) = Some cb → truthy token = true → cb token = None →
    settled st (Normal tt, log (EvTokenRefresh token) (granted token st))
| settled_thrown token cb e :
    onTokenRefresh (config (this st)) = Some cb → truthy token = true → cb token = Some e →
    settled st (Throw e, store_token VUndefined (log (EvTokenRefresh token) (granted token st))).

(** The calls that only read. *)
Definition is_read (o : op) : bool :=
  match o with
  | OpGetAccessToken | OpHasLoggedInBefore => true
  | _ => false
  end.

(** The calls that issue the refresh request. *)
Definition refreshes (o : op) : bool :=
  match o with
  | OpInit _ | OpRefresh _ => true
  | _ => false
  end.

Definition is_fetch (ev : event) : bool :=
  match ev with
  | EvFetch _ _ _ => true
  | _ => false
  end.

Definition is_assign (ev : event) : bool :=
  match ev with
  | EvAssign _ => true
  | _ => false
  end.

Definition count_events (p : event → bool) (evs : list event) : nat :=
  length (List.filter p evs).

Definition count_ops (p : op → bool) (ops : list op) : nat :=
  length (List.filter p ops).

(** A token is held only on a page that has the session-hint cookie. *)
Definition token_implies_hint (st : state) : Prop :=
  accessToken (this st) ≠ VUndefined → is_Some (cookies st !! ALREADY_LOGGED_COOKIE).

(** Occurrences of a character in a string. *)
Fixpoint count_char (c : ascii) (s : string) : nat :=
  match s with
  | EmptyString => 0%nat
  | String d s' => ((if decide (c = d) then 1 else 0) + count_char c s')%nat
  end.

(** Strings made of the characters both encodings leave alone. *)
Definition plain (s : string) : bool := all_ascii Uri.formUnreserved s.

Definition plain_entry (entry : string * string) : bool := plain entry.1 && plain entry.2.

(** Occurrences of a character in the keys of some entries. *)
Fixpoint count_in_keys (c : ascii) (entries : list (string * string)) : nat :=
  match entries with
  | [] => 0%nat
  | (k, _) :: rest => (count_char c k + count_in_keys c rest)%nat
  end.

(** All callbacks of a configuration return. *)
Definition quiet (cfg : BkperAuthConfig) : Prop :=
  (∀ cb, onLoginSuccess cfg = Some cb → cb tt = None) ∧
  (∀ cb, onLoginRequired cfg = Some cb → cb tt = None) ∧
  (∀ cb token, onTokenRefresh cfg = Some cb → cb token = None) ∧
  (∀ cb e, onError cfg = Some cb → cb e = None).

Definition failing_refresh : BkperAuthConfig :=
  {| baseUrl := None; onLoginSuccess := Some returns; onLoginRequired := Some returns;
     onLogout := Some returns; onTokenRefresh := Some (throws boom); onError := Some returns;
     getAdditionalAuthParams := None |}.

(** The answer to the last refresh request of a sequence of calls, if any. *)
Definition last_answer (ops : list op) : option fetch_outcome :=
  fold_left (λ acc o, match o with
                      | OpInit net | OpRefresh net => Some net
                      | _ => acc
                      end) ops None.

(** The token an answer carries: the [accessToken] of a readable 200. *)
Definition answer_token (net : fetch_outcome) : value :=
  match net with
  | FetchRejects _ => VUndefined
  | FetchResolves response =>
      if status response =? 200 then
        match json response with
        | BodyInvalid _ => VUndefined
        | BodyJson data =>
            match member_accessToken data with
            | Normal token => token
            | Throw _ => VUndefined
            end
        end
      else VUndefined
  end.

(** The only places the client of base URL [base] contacts or navigates to:
    the refresh endpoint, by a POST with credentials, and the login and logout
    pages. *)
Definition under_base (base : string) (ev : event) : Prop :=
  match ev with
  | EvFetch url method credentials =>
      (∃ query, url = base +:+ "/auth/refresh" +:+ query)
      ∧ method = "POST" ∧ credentials = "include"
  | EvAssign url =>
      (∃ query, url = base +:+ "/auth/login?returnUrl=" +:+ query)
      ∨ url = base +:+ "/auth/logout"
  | _ => True
  end.

Definition navigates (o : op) : bool :=
  match o with
  | OpLogin | OpLogout => true
  | _ => false
  end.

(** The events that are calls of the host's callbacks. *)
Definition is_notification (ev : event) : bool :=
  match ev with
  | EvFetch _ _ _ | EvAssign _ => false
  | _ => true
  end.

(** What a form-encoded name or value is made of. *)
Definition form_char (c : ascii) : bool :=
  Uri.formUnreserved c || bool_decide (c = "+"%char) || bool_decide (c = "%"%char).

(** The inverse of the escaping of [encodeURIComponent], by which the escaping
    is seen to lose nothing: [%XY] gives back the byte of hexadecimal digits
    [X] and [Y]; an escape that is cut short or has another digit gives
    nothing. *)
Definition hexValue (c : ascii) : option N :=
  if Uri.between 48 57 (Uri.code c) then Some (Uri.code c - 48)%N
  else if Uri.between 65 70 (Uri.code c) then Some (Uri.code c - 55)%N
  else if Uri.between 97 102 (Uri.code c) then Some (Uri.code c - 87)%N
  else None.

Definition unescape (h1 h2 : ascii) : option ascii :=
  match hexValue h1, hexValue h2 with
  | Some a, Some b => Some (ascii_of_N (16 * a + b))
  | _, _ => None
  end.

Fixpoint unescapeAll (s : string) : option string :=
  match s with
  | EmptyString => Some EmptyString
  | String c s1 =>
      if decide (c = "%"%char) then
        match s1 with
        | String h1 (String h2 rest) =>
            match unescape h1 h2, unescapeAll rest with
            | Some d, Some r => Some (String d r)
            | _, _ => None
            end
        | _ => None
        end
      else
        match unescapeAll s1 with
        | Some r => Some (String c r)
        | None => None
        end
  end.

(** ** Calls that overlap *)

(** The two halves of [refresh]: what runs when it is called, up to the
    request, and what runs when the answer is handled, the [.then] and
    [.catch] of the promise. Between the two, other calls and other answers
    may run. The handlers that run before the one that writes (on a 200 the
    first [.then], which only starts reading the body; on another status the
    rejection that the [.catch] will receive) change nothing on the page, so
    the answer is handled at the step that writes: when the body has been
    read, when the 401 is seen, or when the [.catch] runs. With a callback
    that throws, the clearing by [.catch] is a later step of its own; the
    statement on overlapping requests is for callbacks that return. *)
Definition refresh_send : M unit :=
  url ← gets (λ st, getRefreshUrl (this st)) ;
  emit (EvFetch url "POST" "include").

Definition refresh_arrive (net : fetch_outcome) : M unit :=
  try_catch
    (response ← match net with
                | FetchRejects e => throw e
                | FetchResolves response => mret response
                end ;
     onResponse response)
    (λ error, set_accessToken VUndefined ;; throw error).

(** What runs on the page, one piece at a time: a call that settles before
    anything else runs; the sending of a refresh request, by [refresh] or by
    [init]; the handling of the answer to a pending request; and the two ways
    [init] goes on after its [refresh]: [checkAccessToken], inside the [try],
    when it resolved, and the [catch] block when it rejected. *)
Inductive phase : Type :=
| Call (o : op)
| Sent
| Arrived (net : fetch_outcome)
| Checked
| Caught (error : exn).

Definition step_phase (st : state) (p : phase) : state :=
  match p with
  | Call o => step st o
  | Sent => (refresh_send st).2
  | Arrived net => (refresh_arrive net st).2
  | Checked =>
      match checkAccessToken st with
      | (Normal _, st') => st'
      | (Throw e, st') => (report e st').2
      end
  | Caught error => (report error st).2
  end.

Definition run_phases (st : state) (phases : list phase) : state :=
  fold_left step_phase phases st.

(** The answer handled last, if any. *)
Definition last_response (phases : list phase) : option fetch_outcome :=
  fold_left (λ acc p, match p with
                      | Call (OpInit net) | Call (OpRefresh net) | Arrived net => Some net
                      | _ => acc
                      end) phases None.
(** * Properties *)

(** ** Strings *)

Example encodeURIComponent_href :
  Uri.encodeURIComponent "http://localhost:3000/app?a=b c"
  = "http%3A%2F%2Flocalhost%3A3000%2Fapp%3Fa%3Db%20c".
Proof. reflexivity. Qed.

Example serialize_two :
  Uri.serialize [("tenant", "acme corp"); ("a/b", "~x")] = "tenant=acme+corp&a%2Fb=%7Ex".
Proof. reflexivity. Qed.

Lemma append_assoc (a b c : string) : (a +:+ b) +:+ c = a +:+ (b +:+ c).
Proof.
  induction a as [|ch a IH]; [reflexivity|].
  change (String ch ((a +:+ b) +:+ c) = String ch (a +:+ (b +:+ c))).
  by rewrite IH.
Qed.

Lemma append_empty_r (a : string) : a +:+ "" = a.
Proof.
  induction a as [|ch a IH]; [reflexivity|].
  change (String ch (a +:+ "") = String ch a). by rewrite IH.
Qed.

Lemma append_cons (ch : ascii) (a b : string) : String ch a +:+ b = String ch (a +:+ b).
Proof. reflexivity. Qed.

Lemma append_eq_empty (a b : string) : a +:+ b = "" → a = "" ∧ b = "".
Proof.
  destruct a as [|ch a]; [intros H; split; [reflexivity|exact H]|].
  rewrite append_cons. discriminate.
Qed.

(** The query string of [URLSearchParams] is empty for the empty record only. *)
Lemma serialize_empty_iff (entries : list (string * string)) :
  Uri.serialize entries = "" ↔ entries = [].
Proof.
  split; [|by intros ->].
  destruct entries as [|[k v] rest]; [done|].
  cbn [Uri.serialize]. intros H.
  apply append_eq_empty in H as [_ H]. rewrite append_cons in H. discriminate.
Qed.

Lemma all_ascii_append p (a b : string) :
  all_ascii p (a +:+ b) = all_ascii p a && all_ascii p b.
Proof.
  induction a as [|ch a IH]; [reflexivity|].
  rewrite append_cons. cbn [all_ascii]. by rewrite IH, andb_assoc.
Qed.

Lemma percentEncode_component c : all_ascii component_char (Uri.percentEncode c) = true.
Proof. destruct c as [[] [] [] [] [] [] [] []]; vm_compute; reflexivity. Qed.

(** An encoded value cannot end its [&key=value] pair or start another. *)
Lemma encodeURIComponent_component s :
  all_ascii component_char (Uri.encodeURIComponent s) = true.
Proof.
  induction s as [|c s IH]; [reflexivity|].
  cbn [Uri.encodeURIComponent]. rewrite all_ascii_append, IH, andb_true_r.
  destruct (Uri.uriUnreserved c) eqn:Hc; [|apply percentEncode_component].
  cbn [all_ascii]. unfold component_char. by rewrite Hc.
Qed.

(** ** The state after each primitive *)

Section Projections.
Context (st : state).

Lemma this_log ev : this (log ev st) = this st.
Proof. reflexivity. Qed.
Lemma cookies_log ev : cookies (log ev st) = cookies st.
Proof. reflexivity. Qed.
Lemma href_log ev : href (log ev st) = href st.
Proof. reflexivity. Qed.
Lemma trace_log ev : trace (log ev st) = trace st ++ [ev].
Proof. reflexivity. Qed.

Lemma config_store_token v : config (this (store_token v st)) = config (this st).
Proof. reflexivity. Qed.
Lemma baseUrl_store_token v : this_baseUrl (this (store_token v st)) = this_baseUrl (this st).
Proof. reflexivity. Qed.
Lemma accessToken_store_token v : accessToken (this (store_token v st)) = v.
Proof. reflexivity. Qed.
Lemma cookies_store_token v : cookies (store_token v st) = cookies st.
Proof. reflexivity. Qed.
Lemma href_store_token v : href (store_token v st) = href st.
Proof. reflexivity. Qed.
Lemma trace_store_token v : trace (store_token v st) = trace st.
Proof. reflexivity. Qed.

Lemma this_store_cookie k v : this (store_cookie k v st) = this st.
Proof. reflexivity. Qed.
Lemma cookies_store_cookie k v : cookies (store_cookie k v st) = <[k := v]> (cookies st).
Proof. reflexivity. Qed.
Lemma href_store_cookie k v : href (store_cookie k v st) = href st.
Proof. reflexivity. Qed.
Lemma trace_store_cookie k v : trace (store_cookie k v st) = trace st.
Proof. reflexivity. Qed.
End Projections.

Create Rewrite HintDb page.
#[export] Hint Rewrite this_log cookies_log href_log trace_log
  config_store_token baseUrl_store_token accessToken_store_token cookies_store_token
  href_store_token trace_store_token
  this_store_cookie cookies_store_cookie href_store_cookie trace_store_cookie : page.

(** Unfold the methods and the monad down to the three state changes. *)
Ltac settle :=
  cbv beta iota zeta delta
    [refresh onResponse init checkAccessToken login logout call fetch response_json
     location_assign getAccessToken hasLoggedInBefore Cookies_get Cookies_set
     set_accessToken emit gets lift throw try_catch mbind mret M_bind M_ret fst snd].

Ltac page := cbn [fst snd]; autorewrite with page.

(** ** What [refresh] does, case by case *)

Lemma refresh_fetch_rejects st e :
  refresh (FetchRejects e) st = (Throw e, store_token VUndefined (fetched st)).
Proof. reflexivity. Qed.

Lemma refresh_401 st response :
  status response = 401 →
  refresh (FetchResolves response) st = (Normal tt, store_token VUndefined (fetched st)).
Proof. intros H. settle. by rewrite H. Qed.

Lemma refresh_other_status st response :
  status response ≠ 200 → status response ≠ 401 →
  refresh (FetchResolves response) st
  = (Throw (Error (statusText response)), store_token VUndefined (fetched st)).
Proof.
  intros H1 H2. settle.
  destruct (Z.eqb_spec (status response) 200); [done|].
  by destruct (Z.eqb_spec (status response) 401).
Qed.

Lemma refresh_200_invalid st response e :
  status response = 200 → json response = BodyInvalid e →
  refresh (FetchResolves response) st = (Throw e, store_token VUndefined (fetched st)).
Proof. intros H1 H2. settle. by rewrite H1, H2. Qed.

Lemma refresh_200_unreadable st response data e :
  status response = 200 → json response = BodyJson data →
  member_accessToken data = Throw e →
  refresh (FetchResolves response) st = (Throw e, store_token VUndefined (fetched st)).
Proof. intros H1 H2 H3. settle. by rewrite H1, H2, H3. Qed.

Lemma refresh_200 st response data token :
  status response = 200 → json response = BodyJson data →
  member_accessToken data = Normal token →
  refresh (FetchResolves response) st =
  match onTokenRefresh (config (this st)) with
  | Some cb =>
      if truthy token then
        match cb token with
        | None => (Normal tt, log (EvTokenRefresh token) (granted token st))
        | Some e =>
            (Throw e, store_token VUndefined (log (EvTokenRefresh token) (granted token st)))
        end
      else (Normal tt, granted token st)
  | None => (Normal tt, granted token st)
  end.
Proof.
  intros H1 H2 H3. settle. rewrite H1, H2, H3.
  change (200 =? 200) with true. cbv beta iota. page.
  destruct (onTokenRefresh (config (this st))) as [cb|]; [|done].
  destruct (truthy token); [|done].
  by destruct (cb token).
Qed.

Lemma getAccessToken_run st : getAccessToken st = (Normal (accessToken (this st)), st).
Proof. reflexivity. Qed.

Lemma hasLoggedInBefore_run st :
  hasLoggedInBefore st
  = (Normal (match cookies st !! ALREADY_LOGGED_COOKIE with
             | Some _ => true
             | None => false
             end), st).
Proof. reflexivity. Qed.

Lemma hasLoggedInBefore_granted token st :
  (hasLoggedInBefore (granted token st)).1 = Normal true.
Proof.
  settle. unfold granted. page. by rewrite lookup_insert_eq.
Qed.

Lemma member_accessToken_object props :
  member_accessToken (VObj props) = Normal (default VUndefined (ownProperty props "accessToken")).
Proof. reflexivity. Qed.

(** ** Successful refresh *)

(** C1, as amended: on a 200 response whose JSON object carries [accessToken],
    with a callback that returns, [refresh] resolves, the token is the one
    [getAccessToken] returns, the session-hint cookie is set, and
    [onTokenRefresh], when configured, is called once with the token if the
    token is truthy, and not at all if it is falsy (the empty string). *)
Theorem refresh_200_stores_token st response props token :
  status response = 200 →
  json response = BodyJson (VObj props) →
  ownProperty props "accessToken" = Some token →
  (∀ cb, onTokenRefresh (config (this st)) = Some cb → cb token = None) →
  ∃ st', refresh (FetchResolves response) st = (Normal tt, st') ∧
    (getAccessToken st').1 = Normal token ∧
    (hasLoggedInBefore st').1 = Normal true ∧
    trace st' = trace st ++ EvFetch (getRefreshUrl (this st)) "POST" "include" ::
      (if truthy token then notified (onTokenRefresh (config (this st))) (EvTokenRefresh token)
       else []).
Proof.
  intros H200 Hjson Hown Hcb.
  assert (Hmem : member_accessToken (VObj props) = Normal token).
  { by rewrite member_accessToken_object, Hown. }
  rewrite (refresh_200 st response _ token H200 Hjson Hmem).
  destruct (onTokenRefresh (config (this st))) as [cb|] eqn:Hcfg.
  - destruct (truthy token).
    + rewrite (Hcb cb eq_refl).
      exists (log (EvTokenRefresh token) (granted token st)).
      split; [done|]. split; [done|]. split.
      * settle. unfold granted. page. by rewrite lookup_insert_eq.
      * unfold granted, fetched. page. by rewrite <- app_assoc.
    + exists (granted token st). split; [done|]. split; [done|].
      split; [apply hasLoggedInBefore_granted|]. unfold granted, fetched. by page.
  - exists (granted token st). split; [done|]. split; [done|].
    split; [apply hasLoggedInBefore_granted|].
    unfold granted, fetched. page. by destruct (truthy token).
Qed.

Lemma refresh_200_stores_token_witness :
  ∃ st', refresh (ok_token (VStr "abc123")) (fresh listening app_href) = (Normal tt, st') ∧
    (getAccessToken st').1 = Normal (VStr "abc123") ∧
    (hasLoggedInBefore st').1 = Normal true ∧
    trace st' = [EvFetch "https://bkper.app/auth/refresh" "POST" "include";
                 EvTokenRefresh (VStr "abc123")].
Proof.
  apply (refresh_200_stores_token (fresh listening app_href)
           {| status := 200; statusText := "OK";
              json := BodyJson (VObj [("accessToken", VStr "abc123")]) |}
           [("accessToken", VStr "abc123")] (VStr "abc123")).
  - reflexivity.
  - reflexivity.
  - reflexivity.
  - intros cb H. injection H as <-. reflexivity.
Defined.

(** C1, as stated, fails on an empty token: the callback is configured, the
    body carries [accessToken], the call resolves, and the callback is not
    called. *)
Lemma refresh_empty_token_not_notified :
  let r := refresh (ok_token (VStr "")) (fresh listening app_href) in
  is_Some (onTokenRefresh listening) ∧
  r.1 = Normal tt ∧
  (getAccessToken r.2).1 = Normal (VStr "") ∧
  trace r.2 = [EvFetch "https://bkper.app/auth/refresh" "POST" "include"].
Proof. vm_compute. split; [by eexists|done]. Qed.

(** ** How [refresh] settles *)

Lemma refresh_clears_unless_granted st net :
  accessToken (this (refresh net st).2) = VUndefined ∨
  ∃ response data token,
    net = FetchResolves response ∧ status response = 200 ∧
    json response = BodyJson data ∧ member_accessToken data = Normal token ∧
    (refresh net st).1 = Normal tt.
Proof.
  destruct net as [e|response]; [by left|].
  destruct (decide (status response = 200)) as [H200|H200].
  - destruct (json response) as [e|data] eqn:Hjson.
    { left. by rewrite (refresh_200_invalid st response e). }
    destruct (member_accessToken data) as [token|e] eqn:Hmem.
    2:{ left. by rewrite (refresh_200_unreadable st response data e). }
    rewrite (refresh_200 st response data token H200 Hjson Hmem).
    destruct (onTokenRefresh (config (this st))) as [cb|].
    + destruct (truthy token).
      * destruct (cb token); [by left|]. right. by exists response, data, token.
      * right. by exists response, data, token.
    + right. by exists response, data, token.
  - left. destruct (decide (status response = 401)) as [H401|H401].
    + by rewrite refresh_401.
    + by rewrite refresh_other_status.
Qed.

(** C2, as amended: [refresh] resolves only on 200 and 401. It resolves on
    every 401, clearing the token and calling nothing. On a 200 it resolves
    when the body can be read and the callback returns, and rejects otherwise:
    with the error of [response.json()] or of the reading of the body, or
    with what the callback threw. On another status it rejects with
    [Error(statusText)]; a rejection of [fetch] is passed on; and unless it
    resolved on a 200 the token is [undefined] afterwards. *)
Theorem refresh_settles st net :
  let r := refresh net st in
  (r.1 = Normal tt →
     ∃ response, net = FetchResolves response ∧
       (status response = 200 ∨ status response = 401)) ∧
  (∀ response, net = FetchResolves response →
     status response = 200 ∨ status response = 401 →
     (status response = 200 → readable (json response)) →
     (∀ cb token, onTokenRefresh (config (this st)) = Some cb → cb token = None) →
     r.1 = Normal tt) ∧
  (∀ response, net = FetchResolves response → status response = 401 →
     r.1 = Normal tt ∧ (getAccessToken r.2).1 = Normal VUndefined ∧
     trace r.2 = trace st ++ [EvFetch (getRefreshUrl (this st)) "POST" "include"]) ∧
  (∀ response, net = FetchResolves response →
     status response ≠ 200 → status response ≠ 401 →
     r.1 = Throw (Error (statusText response))) ∧
  (∀ e, net = FetchRejects e → r.1 = Throw e) ∧
  (∀ response e, net = FetchResolves response → status response = 200 →
     json response = BodyInvalid e
     ∨ (∃ data, json response = BodyJson data ∧ member_accessToken data = Throw e) →
     r.1 = Throw e) ∧
  (∀ response data token cb e, net = FetchResolves response → status response = 200 →
     json response = BodyJson data → member_accessToken data = Normal token →
     truthy token = true →
     onTokenRefresh (config (this st)) = Some cb → cb token = Some e →
     r.1 = Throw e) ∧
  (¬ completed_200 net r → (getAccessToken r.2).1 = Normal VUndefined).
Proof.
  intros r. subst r. repeat apply conj.
  - intros Hr. destruct net as [e|response]; [done|]. exists response. split; [done|].
    destruct (decide (status response = 200)) as [|H200]; [by left|].
    destruct (decide (status response = 401)) as [|H401]; [by right|].
    by rewrite refresh_other_status in Hr.
  - intros response -> [H200|H401] Hbody Hquiet.
    + destruct (Hbody H200) as (data & token & Hjson & Hmem).
      rewrite (refresh_200 st response data token H200 Hjson Hmem).
      destruct (onTokenRefresh (config (this st))) as [cb|] eqn:Hcfg; [|done].
      destruct (truthy token); [|done]. by rewrite (Hquiet cb token eq_refl).
    + by rewrite refresh_401.
  - intros response -> H401. by rewrite refresh_401.
  - intros response -> H200 H401. by rewrite refresh_other_status.
  - by intros e ->.
  - intros response e -> H200 [Hjson|(data & Hjson & Hmem)].
    + by rewrite (refresh_200_invalid st response e).
    + by rewrite (refresh_200_unreadable st response data e).
  - intros response data token cb e -> H200 Hjson Hmem Htruthy Hcb Hcall.
    by rewrite (refresh_200 st response data token H200 Hjson Hmem), Hcb, Htruthy, Hcall.
  - intros Hnot. rewrite getAccessToken_run. cbn [fst].
    destruct (refresh_clears_unless_granted st net)
      as [->|(response & data & token & Hnet & H200 & _ & _ & Hres)]; [done|].
    exfalso. apply Hnot. by exists response.
Qed.

Lemma refresh_settles_witness :
  let st := fresh listening app_href in
  let unauthorized := answer 401 "Unauthorized" (BodyInvalid (Exn "SyntaxError" "no JSON")) in
  let failed := answer 500 "Server Error" (BodyInvalid (Exn "SyntaxError" "no JSON")) in
  (refresh (ok_token (VStr "abc123")) st).1 = Normal tt ∧
  ((refresh unauthorized st).1 = Normal tt ∧
   (getAccessToken (refresh unauthorized st).2).1 = Normal VUndefined ∧
   trace (refresh unauthorized st).2
   = [EvFetch "https://bkper.app/auth/refresh" "POST" "include"]) ∧
  (refresh failed st).1 = Throw (Error "Server Error") ∧
  (getAccessToken (refresh failed st).2).1 = Normal VUndefined.
Proof.
  intros st unauthorized failed. repeat apply conj.
  - apply (proj1 (proj2 (refresh_settles st (ok_token (VStr "abc123"))))
             {| status := 200; statusText := "OK";
                json := BodyJson (VObj [("accessToken", VStr "abc123")]) |} eq_refl).
    + left. reflexivity.
    + intros _. exists (VObj [("accessToken", VStr "abc123")]), (VStr "abc123").
      split; reflexivity.
    + intros cb token H. injection H as <-. reflexivity.
  - apply (proj1 (proj2 (proj2 (refresh_settles st unauthorized))) _ eq_refl eq_refl).
  - apply (proj1 (proj2 (proj2 (refresh_settles st unauthorized))) _ eq_refl eq_refl).
  - apply (proj1 (proj2 (proj2 (refresh_settles st unauthorized))) _ eq_refl eq_refl).
  - apply (proj1 (proj2 (proj2 (proj2 (refresh_settles st failed)))) _ eq_refl);
      discriminate.
  - apply (proj2 (proj2 (proj2 (proj2 (proj2 (proj2 (proj2 (refresh_settles st failed)))))))).
    intros (response & Hnet & H200 & _). injection Hnet as <-. discriminate H200.
Defined.

(** C2, as stated, fails on a 200: [refresh] rejects when the body is [null],
    and when the token-refreshed callback throws. *)
Lemma refresh_200_can_reject :
  let r := refresh (answer 200 "OK" (BodyJson VNull)) (fresh listening app_href) in
  let r' := refresh (ok_token (VStr "abc123")) (fresh failing_refresh app_href) in
  r.1 = Throw (TypeError "Cannot read properties of null (reading 'accessToken')") ∧
  r.1 ≠ Normal tt ∧
  r'.1 = Throw boom ∧
  r'.1 ≠ Normal tt.
Proof. vm_compute. repeat split; discriminate. Qed.

(** ** A 200 response without a usable token *)

(** C10, as amended: on a 200 response whose body lacks [accessToken], or
    carries a falsy one, [refresh] resolves, sets the session-hint cookie and
    calls no callback; [getAccessToken] then returns [undefined] when the
    field is lacking and the falsy value itself (the empty string) when it is
    there. So a fresh page can have the cookie and no token. *)
Theorem refresh_200_without_token st response data :
  status response = 200 → json response = BodyJson data →
  (∀ token, member_accessToken data = Normal token → truthy token = false →
     ∃ st', refresh (FetchResolves response) st = (Normal tt, st') ∧
       (hasLoggedInBefore st').1 = Normal true ∧
       (getAccessToken st').1 = Normal token ∧
       trace st' = trace st ++ [EvFetch (getRefreshUrl (this st)) "POST" "include"]) ∧
  (∀ props, data = VObj props → ownProperty props "accessToken" = None →
     member_accessToken data = Normal VUndefined) ∧
  (∀ cfg location,
     let st' := run (fresh cfg location) [OpRefresh (answer 200 "OK" (BodyJson (VObj [])))] in
     (hasLoggedInBefore st').1 = Normal true ∧ (getAccessToken st').1 = Normal VUndefined).
Proof.
  intros H200 Hjson. split; [|split].
  - intros token Hmem Hfalsy.
    rewrite (refresh_200 st response data token H200 Hjson Hmem), Hfalsy.
    exists (granted token st).
    split; [by destruct (onTokenRefresh (config (this st)))|].
    split; [apply hasLoggedInBefore_granted|]. split; [done|].
    unfold granted, fetched. by page.
  - intros props -> Hown. by rewrite member_accessToken_object, Hown.
  - intros cfg location st'. subst st'. unfold run, answer. cbn [fold_left step].
    rewrite (refresh_200 (fresh cfg location)
               {| status := 200; statusText := "OK"; json := BodyJson (VObj []) |}
               (VObj []) VUndefined eq_refl eq_refl eq_refl).
    cbn [truthy].
    split; [|by destruct (onTokenRefresh _)].
    destruct (onTokenRefresh _); apply hasLoggedInBefore_granted.
Qed.

Lemma refresh_200_without_token_witness :
  ∃ st', refresh (answer 200 "OK" (BodyJson (VObj [("user", VStr "ana")])))
           (fresh listening app_href) = (Normal tt, st') ∧
    (hasLoggedInBefore st').1 = Normal true ∧
    (getAccessToken st').1 = Normal VUndefined ∧
    trace st' = [EvFetch "https://bkper.app/auth/refresh" "POST" "include"].
Proof.
  apply (proj1 (refresh_200_without_token (fresh listening app_href)
                  {| status := 200; statusText := "OK";
                     json := BodyJson (VObj [("user", VStr "ana")]) |}
                  (VObj [("user", VStr "ana")]) eq_refl eq_refl) VUndefined).
  - reflexivity.
  - reflexivity.
Defined.

(** C10, as stated, fails on an empty token: [getAccessToken] returns the
    empty string, which is not [undefined]. *)
Lemma refresh_empty_token_is_stored :
  let r := refresh (ok_token (VStr "")) (fresh listening app_href) in
  r.1 = Normal tt ∧
  (hasLoggedInBefore r.2).1 = Normal true ∧
  (getAccessToken r.2).1 = Normal (VStr "") ∧
  (getAccessToken r.2).1 ≠ Normal VUndefined.
Proof. vm_compute. repeat split. discriminate. Qed.

(** ** [init] *)

Lemma checkAccessToken_run st :
  checkAccessToken st =
  if truthy (accessToken (this st)) then
    match onLoginSuccess (config (this st)) with
    | Some cb =>
        (match cb tt with Some e => Throw e | None => Normal tt end, log EvLoginSuccess st)
    | None => (Normal tt, st)
    end
  else
    match onLoginRequired (config (this st)) with
    | Some cb =>
        (match cb tt with Some e => Throw e | None => Normal tt end, log EvLoginRequired st)
    | None => (Normal tt, st)
    end.
Proof.
  settle. destruct (truthy _).
  - destruct (onLoginSuccess _) as [cb|]; [|done]. by destruct (cb tt).
  - destruct (onLoginRequired _) as [cb|]; [|done]. by destruct (cb tt).
Qed.

Lemma init_run net st :
  init net st =
  match refresh net st with
  | (Normal _, st1) =>
      match checkAccessToken st1 with
      | (Normal _, st2) => (Normal tt, st2)
      | (Throw e, st2) => report e st2
      end
  | (Throw e, st1) => report e st1
  end.
Proof.
  assert (Hcatch : ∀ e st',
    (self ← gets this ;
     match onError (config self) with
     | Some cb => call (EvError e) cb e
     | None => mret tt
     end) st' = report e st').
  { intros e st'. unfold report, gets, mbind, M_bind.
    by destruct (onError (config (this st'))). }
  unfold init, try_catch. unfold mbind at 1, M_bind at 1.
  destruct (refresh net st) as [[[]|e] st1]; [|apply Hcatch].
  destruct (checkAccessToken st1) as [[[]|e] st2]; [done|apply Hcatch].
Qed.

Lemma report_run e st :
  report e st =
  match onError (config (this st)) with
  | Some cb => (match cb e with Some e' => Throw e' | None => Normal tt end, log (EvError e) st)
  | None => (Normal tt, st)
  end.
Proof.
  unfold report. destruct (onError _) as [cb|]; [|done]. settle. by destruct (cb e).
Qed.

Lemma since_app st st' evs : trace st' = trace st ++ evs → since st st' = evs.
Proof. intros H. unfold since. rewrite H. apply drop_app_length. Qed.

Lemma logins_app evs1 evs2 : logins (evs1 ++ evs2) = logins evs1 ++ logins evs2.
Proof. apply List.filter_app. Qed.

(** [refresh] leaves the host as it was and adds the request, and at most the
    token-refreshed notification, to the trace. *)
Lemma refresh_frame st net :
  same_host st (refresh net st).2 ∧
  ∃ evs, trace (refresh net st).2 = trace st ++ evs ∧ logins evs = [].
Proof.
  assert (Hclear : same_host st (store_token VUndefined (fetched st)) ∧
    ∃ evs, trace (store_token VUndefined (fetched st)) = trace st ++ evs ∧ logins evs = []).
  { split; [done|]. by eexists [_]. }
  destruct net as [e|response]; [exact Hclear|].
  destruct (decide (status response = 200)) as [H200|H200].
  - destruct (json response) as [e|data] eqn:Hjson.
    { by rewrite (refresh_200_invalid st response e). }
    destruct (member_accessToken data) as [token|e] eqn:Hmem.
    2:{ by rewrite (refresh_200_unreadable st response data e). }
    rewrite (refresh_200 st response data token H200 Hjson Hmem).
    assert (Hgranted : same_host st (granted token st) ∧
      ∃ evs, trace (granted token st) = trace st ++ evs ∧ logins evs = []).
    { split; [done|]. by eexists [_]. }
    destruct (onTokenRefresh (config (this st))) as [cb|]; [|exact Hgranted].
    destruct (truthy token); [|exact Hgranted].
    destruct (cb token); (split; [done|]);
      exists [EvFetch (getRefreshUrl (this st)) "POST" "include"; EvTokenRefresh token];
      (split; [|done]); unfold granted, fetched; page; by rewrite <- app_assoc.
  - destruct (decide (status response = 401)) as [H401|H401].
    + by rewrite refresh_401.
    + by rewrite refresh_other_status.
Qed.

Lemma refresh_config st net : config (this (refresh net st).2) = config (this st).
Proof. apply refresh_frame. Qed.

(** ** [init] and the failures of the transport *)

Lemma init_resolves_when_onError_returns st net :
  (∀ cb error, onError (config (this st)) = Some cb → cb error = None) →
  (init net st).1 = Normal tt ∧
  ∀ error st1, refresh net st = (Throw error, st1) →
    trace (init net st).2 = trace st1 ++ notified (onError (config (this st))) (EvError error) ∧
    logins (since st (init net st).2) = [].
Proof.
  intros Hquiet.
  assert (Hreport : ∀ e st', config (this st') = config (this st) →
    report e st' = (Normal tt, match onError (config (this st)) with
                               | Some _ => log (EvError e) st'
                               | None => st'
                               end)).
  { intros e st' Hcfg. rewrite report_run, Hcfg.
    destruct (onError (config (this st))) as [cb|] eqn:Hcb; [|done].
    by rewrite (Hquiet cb e eq_refl). }
  pose proof (refresh_frame st net) as [(Hcfg & _) (evs & Htrace & Hlogins)].
  rewrite init_run. destruct (refresh net st) as [[[]|e] st1] eqn:Hrefresh; cbn [snd] in *.
  - split; [|by intros error st1' [=]].
    rewrite checkAccessToken_run.
    destruct (truthy (accessToken (this st1))).
    + destruct (onLoginSuccess (config (this st1))) as [cb|]; [|done].
      destruct (cb tt); [|done]. by rewrite Hreport.
    + destruct (onLoginRequired (config (this st1))) as [cb|]; [|done].
      destruct (cb tt); [|done]. by rewrite Hreport.
  - rewrite (Hreport e st1 Hcfg). split; [done|].
    intros error st1' [= <- <-]. cbn [snd].
    destruct (onError (config (this st))) as [cb|]; cbn [notified].
    + split; [done|]. rewrite (since_app st _ (evs ++ [EvError e])).
      * by rewrite logins_app, Hlogins.
      * by rewrite trace_log, Htrace, <- app_assoc.
    + split; [by rewrite app_nil_r|]. by rewrite (since_app st _ evs).
Qed.

(** C3, as amended: whatever the network answers, [init] resolves provided
    the error callback returns; when [refresh] rejects, the error goes to
    [onError] if it is configured and nowhere otherwise, and neither
    login-succeeded nor login-required is called. What the error callback
    throws on the error of [refresh] leaves [init]. *)
Theorem init_never_throws st net :
  ((∀ cb error, onError (config (this st)) = Some cb → cb error = None) →
   (init net st).1 = Normal tt ∧
   ∀ error st1, refresh net st = (Throw error, st1) →
     trace (init net st).2 = trace st1 ++ notified (onError (config (this st))) (EvError error) ∧
     logins (since st (init net st).2) = []) ∧
  (∀ error st1 cb e,
     refresh net st = (Throw error, st1) →
     onError (config (this st)) = Some cb → cb error = Some e →
     (init net st).1 = Throw e ∧
     trace (init net st).2 = trace st1 ++ [EvError error]).
Proof.
  split; [apply init_resolves_when_onError_returns|].
  intros error st1 cb e Hrefresh Hcb Hcall.
  pose proof (refresh_config st net) as Hcfg. rewrite Hrefresh in Hcfg. cbn [snd] in Hcfg.
  by rewrite init_run, Hrefresh, report_run, Hcfg, Hcb, Hcall.
Qed.

Lemma init_never_throws_witness :
  let net := answer 500 "Server Error" (BodyJson VNull) in
  let st := fresh listening app_href in
  (init net st).1 = Normal tt ∧
  trace (init net st).2
  = [EvFetch "https://bkper.app/auth/refresh" "POST" "include"; EvError (Error "Server Error")] ∧
  logins (since st (init net st).2) = [].
Proof.
  intros net st.
  assert (Hquiet : ∀ cb error, onError (config (this st)) = Some cb → cb error = None).
  { intros cb error H. injection H as <-. reflexivity. }
  split; [exact (proj1 (proj1 (init_never_throws st net) Hquiet))|].
  exact (proj2 (proj1 (init_never_throws st net) Hquiet) (Error "Server Error")
           (store_token VUndefined (fetched st)) eq_refl).
Defined.

(** C3, as stated, fails when the error callback throws: on a 500 answer
    [init] calls [onError] with the error of [refresh] and throws what the
    callback threw. *)
Lemma init_throws_with_failing_onError :
  let r := init (answer 500 "Server Error" (BodyJson VNull)) (fresh failing_error app_href) in
  onError failing_error = Some (throws boom) ∧
  r.1 = Throw boom ∧
  r.1 ≠ Normal tt ∧
  trace r.2
  = [EvFetch "https://bkper.app/auth/refresh" "POST" "include"; EvError (Error "Server Error")].
Proof. vm_compute. repeat split. discriminate. Qed.

(** ** [init] and the two login notifications *)

Lemma logins_notified_error {A : Type} (cb : option (callback A)) e :
  logins (notified cb (EvError e)) = [].
Proof. by destruct cb. Qed.

Lemma report_frame e st :
  trace (report e st).2 = trace st ++ notified (onError (config (this st))) (EvError e).
Proof.
  rewrite report_run. destruct (onError (config (this st))); cbn [snd notified].
  - done.
  - by rewrite app_nil_r.
Qed.

Lemma checkAccessToken_frame st :
  trace (checkAccessToken st).2 = trace st ++
    (if truthy (accessToken (this st))
     then notified (onLoginSuccess (config (this st))) EvLoginSuccess
     else notified (onLoginRequired (config (this st))) EvLoginRequired) ∧
  config (this (checkAccessToken st).2) = config (this st).
Proof.
  rewrite checkAccessToken_run.
  destruct (truthy (accessToken (this st))).
  - destruct (onLoginSuccess (config (this st))); cbn [snd notified]; [done|].
    by rewrite app_nil_r.
  - destruct (onLoginRequired (config (this st))); cbn [snd notified]; [done|].
    by rewrite app_nil_r.
Qed.

Lemma logins_notified_login (cb : option (callback unit)) ev :
  is_login ev = true → logins (notified cb ev) = notified cb ev.
Proof. intros H. destruct cb; [|done]. cbn. by rewrite H. Qed.

(** C4, as amended: [init] calls at most one of login-succeeded and
    login-required, never both. When [refresh] resolves it is the one the
    token selects, if that callback is configured: login-succeeded for a
    truthy token, login-required otherwise. When [refresh] rejects it is
    neither. *)
Theorem init_login_notification st net :
  logins (since st (init net st).2) =
  match refresh net st with
  | (Normal _, st1) =>
      if truthy (accessToken (this st1))
      then notified (onLoginSuccess (config (this st))) EvLoginSuccess
      else notified (onLoginRequired (config (this st))) EvLoginRequired
  | (Throw _, _) => []
  end
  ∧ (length (logins (since st (init net st).2)) ≤ 1)%nat.
Proof.
  pose proof (refresh_frame st net) as [(Hcfg & _) (evs & Htrace & Hlogins)].
  assert (Hsel : ∀ st1 : state,
    (length (if truthy (accessToken (this st1))
             then notified (onLoginSuccess (config (this st))) EvLoginSuccess
             else notified (onLoginRequired (config (this st))) EvLoginRequired) ≤ 1)%nat).
  { intros st1. destruct (truthy _); [destruct (onLoginSuccess _)|destruct (onLoginRequired _)];
      cbn; lia. }
  rewrite init_run.
  destruct (refresh net st) as [[[]|e] st1] eqn:Hrefresh; cbn [snd] in *.
  - pose proof (checkAccessToken_frame st1) as [Hcheck Hcfg2]. rewrite Hcfg in Hcheck.
    set (sel := if truthy (accessToken (this st1))
                then notified (onLoginSuccess (config (this st))) EvLoginSuccess
                else notified (onLoginRequired (config (this st))) EvLoginRequired) in *.
    assert (Hsel_logins : logins sel = sel).
    { subst sel. destruct (truthy _); by apply logins_notified_login. }
    assert (Hgoal : ∀ st',
      (∃ tail, trace st' = trace st ++ evs ++ sel ++ tail ∧ logins tail = []) →
      logins (since st st') = sel).
    { intros st' (tail & Ht & Htail). rewrite (since_app st st' _ Ht).
      by rewrite !logins_app, Hlogins, Hsel_logins, Htail, app_nil_r. }
    assert (Hboth : logins (since st
      match checkAccessToken st1 with
      | (Normal _, st2) => (Normal (), st2)
      | (Throw e, st2) => report e st2
      end.2) = sel).
    { destruct (checkAccessToken st1) as [[[]|e] st2]; cbn [snd] in *; apply Hgoal.
      - exists []. split; [|done]. by rewrite Hcheck, Htrace, app_nil_r, <- app_assoc.
      - exists (notified (onError (config (this st2))) (EvError e)).
        split; [|apply logins_notified_error].
        by rewrite report_frame, Hcheck, Htrace, <- !app_assoc. }
    rewrite Hboth. split; [done|]. subst sel. apply Hsel.
  - assert (Hnone : logins (since st (report e st1).2) = []).
    { rewrite (since_app st _ (evs ++ notified (onError (config (this st1))) (EvError e))).
      - by rewrite logins_app, Hlogins, logins_notified_error.
      - by rewrite report_frame, Htrace, <- app_assoc. }
    rewrite Hnone. split; [done|]. cbn. lia.
Qed.

(** C4, as stated, fails when [refresh] rejects: both callbacks are
    configured and neither is called. *)
Lemma init_server_error_no_login_notification :
  let r := init (answer 500 "Server Error" (BodyJson VNull)) (fresh listening app_href) in
  is_Some (onLoginSuccess listening) ∧ is_Some (onLoginRequired listening) ∧
  r.1 = Normal tt ∧
  trace r.2
  = [EvFetch "https://bkper.app/auth/refresh" "POST" "include"; EvError (Error "Server Error")] ∧
  (EvLoginSuccess ∉ trace r.2) ∧ (EvLoginRequired ∉ trace r.2).
Proof.
  vm_compute. split; [by eexists|]. split; [by eexists|]. split; [done|]. split; [done|].
  split; intros H; repeat (apply elem_of_cons in H as [H|H]; [discriminate H|]);
    by apply elem_of_nil in H.
Qed.

(** ** Callbacks that throw *)

Lemma logout_run st :
  logout st =
  match onLogout (config (this st)) with
  | Some cb =>
      match cb tt with
      | Some e => (Throw e, log EvLogout st)
      | None => (Normal tt, log (EvAssign (getLogoutUrl (this st))) (log EvLogout st))
      end
  | None => (Normal tt, log (EvAssign (getLogoutUrl (this st))) st)
  end.
Proof.
  settle. destruct (onLogout (config (this st))) as [cb|]; [|done]. by destruct (cb tt).
Qed.

(** C9, as amended: an exception of [onLogout] leaves [logout] before any
    navigation, and one of [onTokenRefresh] rejects [refresh]. Inside [init]
    the [try] block holds the login-succeeded and login-required calls as well
    as [refresh]: an exception of either is caught and handed to [onError]
    (dropped when there is none), and [init] resolves unless [onError] itself
    throws; what [init] throws is always what [onError] threw. *)
Theorem callback_exceptions st :
  (∀ cb e, onLogout (config (this st)) = Some cb → cb tt = Some e →
     logout st = (Throw e, log EvLogout st)) ∧
  (∀ response data token cb e,
     status response = 200 → json response = BodyJson data →
     member_accessToken data = Normal token → truthy token = true →
     onTokenRefresh (config (this st)) = Some cb → cb token = Some e →
     (refresh (FetchResolves response) st).1 = Throw e) ∧
  (∀ net st1 cb e,
     refresh net st = (Normal tt, st1) →
     (truthy (accessToken (this st1)) = true ∧ onLoginSuccess (config (this st)) = Some cb
      ∨ truthy (accessToken (this st1)) = false ∧ onLoginRequired (config (this st)) = Some cb) →
     cb tt = Some e →
     (init net st).1 =
       match onError (config (this st)) with
       | Some handler => match handler e with Some e' => Throw e' | None => Normal tt end
       | None => Normal tt
       end ∧
     trace (init net st).2 = trace st1 ++
       (if truthy (accessToken (this st1)) then EvLoginSuccess else EvLoginRequired) ::
       notified (onError (config (this st))) (EvError e)) ∧
  (∀ net e', (init net st).1 = Throw e' →
     ∃ handler e, onError (config (this st)) = Some handler ∧ handler e = Some e') ∧
  (∀ net e st1 handler e',
     refresh net st = (Throw e, st1) →
     onError (config (this st)) = Some handler → handler e = Some e' →
     (init net st).1 = Throw e').
Proof.
  repeat apply conj.
  - intros cb e Hcb He. by rewrite logout_run, Hcb, He.
  - intros response data token cb e H200 Hjson Hmem Htruthy Hcb He.
    by rewrite (refresh_200 st response data token H200 Hjson Hmem), Hcb, Htruthy, He.
  - intros net st1 cb e Hrefresh Hsel He.
    pose proof (refresh_config st net) as Hcfg. rewrite Hrefresh in Hcfg. cbn [snd] in Hcfg.
    rewrite init_run, Hrefresh, checkAccessToken_run, Hcfg.
    destruct Hsel as [[-> ->]|[-> ->]]; rewrite He, report_run, this_log, Hcfg;
      (destruct (onError (config (this st))) as [handler|]; cbn [fst snd notified];
       [split; [done|]; by rewrite !trace_log, <- app_assoc|done]).
  - intros net e'. rewrite init_run.
    pose proof (refresh_config st net) as Hcfg.
    assert (Hreport : ∀ e st', config (this st') = config (this st) →
      (report e st').1 = Throw e' →
      ∃ handler e, onError (config (this st)) = Some handler ∧ handler e = Some e').
    { intros e st' Hst'. rewrite report_run, Hst'.
      destruct (onError (config (this st))) as [handler|]; [|done].
      destruct (handler e) as [e''|] eqn:Hh; [|done]. intros [= ->]. by exists handler, e. }
    destruct (refresh net st) as [[[]|e] st1]; cbn [snd] in Hcfg; [|by apply Hreport].
    pose proof (checkAccessToken_frame st1) as [_ Hcfg2].
    destruct (checkAccessToken st1) as [[[]|e] st2]; [done|].
    apply Hreport. cbn [snd] in Hcfg2. by rewrite Hcfg2.
  - intros net e st1 handler e' Hrefresh Hhandler He'.
    pose proof (refresh_config st net) as Hcfg. rewrite Hrefresh in Hcfg. cbn [snd] in Hcfg.
    by rewrite init_run, Hrefresh, report_run, Hcfg, Hhandler, He'.
Qed.

Lemma callback_exceptions_witness :
  let st := fresh failing_success app_href in
  (init (ok_token (VStr "abc123")) st).1 = Normal tt ∧
  trace (init (ok_token (VStr "abc123")) st).2
  = [EvFetch "https://bkper.app/auth/refresh" "POST" "include"; EvTokenRefresh (VStr "abc123");
     EvLoginSuccess; EvError boom].
Proof.
  intros st.
  exact (proj1 (proj2 (proj2 (callback_exceptions st))) (ok_token (VStr "abc123"))
           (log (EvTokenRefresh (VStr "abc123")) (granted (VStr "abc123") st))
           (throws boom) boom eq_refl (or_introl (conj eq_refl eq_refl)) eq_refl).
Defined.

(** C9, as stated, fails inside [init]: the login-succeeded callback throws,
    [init] resolves all the same and the exception is handed to [onError]. *)
Lemma init_catches_login_callback :
  let r := init (ok_token (VStr "abc123")) (fresh failing_success app_href) in
  onLoginSuccess failing_success = Some (throws boom) ∧
  (EvLoginSuccess ∈ trace r.2) ∧
  r.1 = Normal tt ∧
  r.1 ≠ Throw boom.
Proof.
  vm_compute. split; [done|]. split; [|split; [done|discriminate]].
  do 2 apply list_elem_of_further. apply list_elem_of_here.
Qed.

(** ** Redirects *)

Lemma fold_left_appendParam entries url :
  fold_left appendParam entries url = url +:+ query_pairs entries.
Proof.
  revert url. induction entries as [|[k v] rest IH]; intros url.
  - cbn [fold_left query_pairs]. by rewrite append_empty_r.
  - cbn [fold_left query_pairs]. rewrite IH. unfold appendParam. cbn [fst snd].
    by rewrite !append_assoc.
Qed.

Lemma getLoginUrl_spec self location : getLoginUrl self location = login_redirect self location.
Proof.
  unfold getLoginUrl, login_redirect, extra_params, AUTH_LOGIN_PATH.
  destruct (getAdditionalAuthParams (config self)) as [provider|].
  - by rewrite fold_left_appendParam, !append_assoc.
  - cbn [query_pairs]. by rewrite !append_empty_r.
Qed.

(** C6: [login] navigates to [baseUrl + "/auth/login"] with [returnUrl], the
    encoded location, followed by one [&key=value] pair per extra parameter
    with its value encoded; it resolves, leaves the instance (and so the
    token) and the cookies as they were, and its only event is the
    navigation: no callback is called. *)
Theorem login_navigates st :
  ∃ st', login st = (Normal tt, st') ∧
    trace st' = trace st ++ [EvAssign (login_redirect (this st) (href st))] ∧
    this st' = this st ∧ cookies st' = cookies st.
Proof.
  exists (log (EvAssign (login_redirect (this st) (href st))) st).
  split; [|done]. settle. by rewrite getLoginUrl_spec.
Qed.

(** C7: [logout] calls [onLogout], when configured, before it navigates; the
    navigation, which happens when the callback returns, is to
    [baseUrl + "/auth/logout"] whatever the extra parameters; the token is
    left as it was. *)
Theorem logout_navigates st :
  let r := logout st in
  accessToken (this r.2) = accessToken (this st) ∧
  trace r.2 = trace st ++ notified (onLogout (config (this st))) EvLogout ++
    match r.1 with
    | Normal _ => [EvAssign (this_baseUrl (this st) +:+ "/auth/logout")]
    | Throw _ => []
    end ∧
  ((∀ cb, onLogout (config (this st)) = Some cb → cb tt = None) → r.1 = Normal tt).
Proof.
  intros r. subst r. rewrite logout_run.
  destruct (onLogout (config (this st))) as [cb|].
  - destruct (cb tt) as [e|] eqn:Hcb; cbn [fst snd notified]; page.
    + split; [done|]. split; [done|]. intros H. specialize (H cb eq_refl). congruence.
    + split; [done|]. split; [|done]. by rewrite <- app_assoc.
  - cbn [fst snd notified]. page. done.
Qed.

Lemma logout_navigates_witness :
  let r := logout (fresh tenant_acme app_href) in
  accessToken (this r.2) = VUndefined ∧
  trace r.2 = [EvLogout; EvAssign "https://auth.example/auth/logout"] ∧
  r.1 = Normal tt.
Proof.
  intros r.
  pose proof (logout_navigates (fresh tenant_acme app_href)) as (Htoken & Htrace & Hres).
  assert (Hquiet : ∀ cb, onLogout (config (this (fresh tenant_acme app_href))) = Some cb →
                         cb tt = None).
  { intros cb H. injection H as <-. reflexivity. }
  split; [exact Htoken|]. split; [exact Htrace|exact (Hres Hquiet)].
Defined.

(** C8: the refresh URL is [baseUrl + "/auth/refresh"], followed by [?] and
    the serialized extra parameters unless there are none; the serialization
    is empty for the empty mapping only. With [{tenant: "acme"}] the refresh
    URL ends in [?tenant=acme] and the login URL in [&tenant=acme]. *)
Theorem refresh_url self :
  getRefreshUrl self = this_baseUrl self +:+ "/auth/refresh" +:+
    match extra_params self with
    | [] => ""
    | entries => "?" +:+ Uri.serialize entries
    end ∧
  (∀ entries, Uri.serialize entries = "" ↔ entries = []) ∧
  (∀ st net, ∃ evs,
     trace (refresh net st).2
     = trace st ++ EvFetch (getRefreshUrl (this st)) "POST" "include" :: evs) ∧
  (extra_params self = [("tenant", "acme")] →
   getRefreshUrl self = this_baseUrl self +:+ "/auth/refresh" +:+ "?tenant=acme" ∧
   ∀ location,
     getLoginUrl self location
     = this_baseUrl self +:+ "/auth/login" +:+ "?returnUrl=" +:+ Uri.encodeURIComponent location
         +:+ "&tenant=acme").
Proof.
  assert (Hurl : getRefreshUrl self = this_baseUrl self +:+ "/auth/refresh" +:+
    match extra_params self with
    | [] => ""
    | entries => "?" +:+ Uri.serialize entries
    end).
  { unfold getRefreshUrl, extra_params, AUTH_REFRESH_PATH.
    destruct (getAdditionalAuthParams (config self)) as [provider|].
    - cbv zeta. case_bool_decide as Hq.
      + apply serialize_empty_iff in Hq as ->. by rewrite append_empty_r.
      + destruct (provider tt) as [|entry rest]; [done|]. by rewrite append_assoc.
    - by rewrite append_empty_r. }
  split; [exact Hurl|]. split; [exact serialize_empty_iff|]. split.
  - intros st net.
    destruct net as [e|response]; [by exists []|].
    destruct (decide (status response = 200)) as [H200|H200].
    + destruct (json response) as [e|data] eqn:Hjson.
      { rewrite (refresh_200_invalid st response e H200 Hjson). by exists []. }
      destruct (member_accessToken data) as [token|e] eqn:Hmem.
      2:{ rewrite (refresh_200_unreadable st response data e H200 Hjson Hmem). by exists []. }
      rewrite (refresh_200 st response data token H200 Hjson Hmem).
      destruct (onTokenRefresh (config (this st))) as [cb|]; [|by exists []].
      destruct (truthy token); [|by exists []].
      destruct (cb token); exists [EvTokenRefresh token]; unfold granted, fetched; page;
        by rewrite <- app_assoc.
    + destruct (decide (status response = 401)) as [H401|H401].
      * rewrite (refresh_401 st response H401). by exists [].
      * rewrite (refresh_other_status st response H200 H401). by exists [].
  - intros Hextra. split.
    + by rewrite Hurl, Hextra.
    + intros location. rewrite getLoginUrl_spec. unfold login_redirect. by rewrite Hextra.
Qed.

Lemma refresh_url_witness :
  getRefreshUrl (constructor tenant_acme) = "https://auth.example/auth/refresh?tenant=acme" ∧
  getLoginUrl (constructor tenant_acme) app_href
  = "https://auth.example/auth/login?returnUrl=http%3A%2F%2Flocalhost%3A3000%2Fapp&tenant=acme".
Proof.
  pose proof (proj2 (proj2 (proj2 (refresh_url (constructor tenant_acme)))) eq_refl)
    as [Hrefresh Hlogin].
  split; [exact Hrefresh|exact (Hlogin app_href)].
Defined.

Example login_with_tenant :
  login (fresh tenant_acme app_href)
  = (Normal tt,
     log (EvAssign
            "https://auth.example/auth/login?returnUrl=http%3A%2F%2Flocalhost%3A3000%2Fapp&tenant=acme")
         (fresh tenant_acme app_href)).
Proof. reflexivity. Qed.

(** ** The session-hint cookie *)

Lemma refresh_cookies st net :
  cookies (refresh net st).2 =
  if grants net then <[ALREADY_LOGGED_COOKIE := "true"]> (cookies st) else cookies st.
Proof.
  destruct net as [e|response]; [done|]. cbn [grants].
  destruct (decide (status response = 200)) as [H200|H200].
  - rewrite H200. cbn [Z.eqb Pos.eqb andb].
    destruct (json response) as [e|data] eqn:Hjson.
    { by rewrite (refresh_200_invalid st response e). }
    destruct (member_accessToken data) as [token|e] eqn:Hmem.
    2:{ by rewrite (refresh_200_unreadable st response data e). }
    rewrite (refresh_200 st response data token H200 Hjson Hmem).
    destruct (onTokenRefresh (config (this st))) as [cb|]; [|done].
    destruct (truthy token); [|done]. by destruct (cb token).
  - destruct (Z.eqb_spec (status response) 200) as [|_]; [done|]. cbn [andb].
    destruct (decide (status response = 401)) as [H401|H401].
    + by rewrite refresh_401.
    + by rewrite refresh_other_status.
Qed.

Lemma init_cookies st net : cookies (init net st).2 = cookies (refresh net st).2.
Proof.
  assert (Hreport : ∀ e st', cookies (report e st').2 = cookies st').
  { intros e st'. rewrite report_run. by destruct (onError _). }
  rewrite init_run. destruct (refresh net st) as [[[]|e] st1]; cbn [snd]; [|apply Hreport].
  assert (Hcheck : cookies (checkAccessToken st1).2 = cookies st1).
  { rewrite checkAccessToken_run.
    destruct (truthy _); [by destruct (onLoginSuccess _)|by destruct (onLoginRequired _)]. }
  destruct (checkAccessToken st1) as [[[]|e] st2]; cbn [snd] in *; [done|].
  by rewrite Hreport.
Qed.

Lemma step_cookies st o :
  cookies (step st o) =
  if op_grants o then <[ALREADY_LOGGED_COOKIE := "true"]> (cookies st) else cookies st.
Proof.
  destruct o as [| |net|net| |]; cbn [step op_grants]; try done.
  - by rewrite init_cookies, refresh_cookies.
  - apply refresh_cookies.
  - rewrite logout_run. destruct (onLogout _) as [cb|]; [|done]. by destruct (cb tt).
Qed.

Lemma completed_200_grants st net :
  completed_200 net (refresh net st) → grants net = true.
Proof.
  intros (response & -> & H200 & Hres). cbn [grants]. rewrite H200. cbn [Z.eqb Pos.eqb andb].
  destruct (json response) as [e|data] eqn:Hjson.
  { by rewrite (refresh_200_invalid st response e) in Hres. }
  destruct (member_accessToken data) as [token|e] eqn:Hmem; [done|].
  by rewrite (refresh_200_unreadable st response data e) in Hres.
Qed.

Lemma grants_completed_200 st net :
  (∀ cb token, onTokenRefresh (config (this st)) = Some cb → cb token = None) →
  grants net = true → completed_200 net (refresh net st).
Proof.
  intros Hquiet Hgrants. destruct net as [e|response]; [done|]. cbn [grants] in Hgrants.
  apply andb_true_iff in Hgrants as [H200%Z.eqb_eq Hbody].
  exists response. split; [done|]. split; [done|].
  destruct (json response) as [e|data] eqn:Hjson; [done|].
  destruct (member_accessToken data) as [token|e] eqn:Hmem; [|done].
  rewrite (refresh_200 st response data token H200 Hjson Hmem).
  destruct (onTokenRefresh (config (this st))) as [cb|] eqn:Hcb; [|done].
  destruct (truthy token); [|done]. by rewrite (Hquiet cb token eq_refl).
Qed.

(** C5, as amended: on a fresh page [hasLoggedInBefore] is false, and stays
    false as long as no call receives a 200 that grants a token field; it is
    true right after a [refresh] or [init] that received one, whether the call
    then resolves or rejects because the callback threw, so in particular
    after a [refresh] that completed with HTTP 200; from then on it stays true
    whatever is called and whatever the network answers; the cookie is written
    on such a 200 alone (by [refresh], directly or within [init]), which, the
    callback returning, is a [refresh] that resolves on its 200. *)
Theorem session_hint_flag cfg location :
  (hasLoggedInBefore (fresh cfg location)).1 = Normal false ∧
  (∀ ops, Forall (λ o, op_grants o = false) ops →
     (hasLoggedInBefore (run (fresh cfg location) ops)).1 = Normal false) ∧
  (∀ st net, completed_200 net (refresh net st) →
     (hasLoggedInBefore (refresh net st).2).1 = Normal true ∧
     (hasLoggedInBefore (init net st).2).1 = Normal true) ∧
  (∀ st ops, (hasLoggedInBefore st).1 = Normal true →
     (hasLoggedInBefore (run st ops)).1 = Normal true) ∧
  (∀ st o, cookies (step st o) ≠ cookies st →
     cookies (step st o) = <[ALREADY_LOGGED_COOKIE := "true"]> (cookies st) ∧
     ∃ net, (o = OpRefresh net ∨ o = OpInit net) ∧ grants net = true ∧
       ((∀ cb token, onTokenRefresh (config (this st)) = Some cb → cb token = None) →
        completed_200 net (refresh net st))) ∧
  (∀ st net, grants net = true →
     (hasLoggedInBefore (refresh net st).2).1 = Normal true ∧
     (hasLoggedInBefore (init net st).2).1 = Normal true).
Proof.
  repeat apply conj.
  - done.
  - intros ops Hops.
    assert (Hjar : cookies (run (fresh cfg location) ops) = ∅).
    { change ∅ with (cookies (fresh cfg location)). generalize (fresh cfg location) as st.
      induction Hops as [|o ops Ho _ IH]; intros st; [done|].
      cbn [run fold_left]. fold (run (step st o) ops).
      by rewrite IH, step_cookies, Ho. }
    by rewrite hasLoggedInBefore_run, Hjar.
  - intros st net Hdone. rewrite !hasLoggedInBefore_run, init_cookies, refresh_cookies.
    rewrite (completed_200_grants st net Hdone). cbn [fst]. by rewrite lookup_insert_eq.
  - intros st ops. revert st. induction ops as [|o ops IH]; intros st Hst; [done|].
    cbn [run fold_left]. fold (run (step st o) ops). apply IH.
    rewrite hasLoggedInBefore_run in *. rewrite step_cookies. cbn [fst] in *.
    destruct (op_grants o); [by rewrite lookup_insert_eq|done].
  - intros st o Hchange. rewrite step_cookies in Hchange |- *.
    destruct (op_grants o) eqn:Hgrants; [|done]. split; [done|].
    destruct o as [| |net|net| |]; try done; exists net; (split; [auto|]);
      (split; [done|]); intros Hquiet; by apply grants_completed_200.
  - intros st net Hgrants. rewrite !hasLoggedInBefore_run, init_cookies, refresh_cookies.
    rewrite Hgrants. cbn [fst]. by rewrite lookup_insert_eq.
Qed.

Lemma session_hint_flag_witness :
  let st := fresh listening app_href in
  (hasLoggedInBefore (run st [OpInit (answer 401 "Unauthorized" (BodyJson VNull)); OpLogin])).1
  = Normal false ∧
  (hasLoggedInBefore (refresh (ok_token (VStr "abc123")) st).2).1 = Normal true ∧
  (hasLoggedInBefore
     (run (refresh (ok_token (VStr "abc123")) st).2
        [OpRefresh (answer 401 "Unauthorized" (BodyJson VNull));
         OpInit (FetchRejects (TypeError "Failed to fetch")); OpLogout])).1 = Normal true.
Proof.
  intros st.
  pose proof (session_hint_flag listening app_href) as (_ & Hbefore & Hafter & Hkeeps & _).
  assert (Hdone : completed_200 (ok_token (VStr "abc123")) (refresh (ok_token (VStr "abc123")) st)).
  { eexists. split; [reflexivity|]. split; reflexivity. }
  split; [|split].
  - apply Hbefore. repeat constructor.
  - exact (proj1 (Hafter st _ Hdone)).
  - apply Hkeeps. exact (proj1 (Hafter st _ Hdone)).
Defined.

(** C5, as stated, fails when the token-refreshed callback throws: on a fresh
    page the [refresh] rejects, so none has succeeded, and the cookie is
    written all the same. *)
Lemma hint_set_by_rejected_refresh :
  let st := fresh failing_refresh app_href in
  let r := refresh (ok_token (VStr "abc123")) st in
  (hasLoggedInBefore st).1 = Normal false ∧
  r.1 = Throw boom ∧
  ¬ completed_200 (ok_token (VStr "abc123")) r ∧
  (hasLoggedInBefore r.2).1 = Normal true.
Proof.
  cbv zeta. split; [reflexivity|]. split; [reflexivity|]. split; [|reflexivity].
  intros (response & _ & _ & Hres). vm_compute in Hres. discriminate Hres.
Qed.

(** * Further properties of the client *)

(** ** The shapes of a settled [refresh] *)

Lemma refresh_settled st net : settled st (refresh net st).
Proof.
  destruct net as [e|response]; [apply settled_cleared|].
  destruct (decide (status response = 200)) as [H200|H200].
  - destruct (json response) as [e|data] eqn:Hjson.
    { rewrite (refresh_200_invalid st response e H200 Hjson). apply settled_cleared. }
    destruct (member_accessToken data) as [token|e] eqn:Hmem.
    2:{ rewrite (refresh_200_unreadable st response data e H200 Hjson Hmem).
        apply settled_cleared. }
    rewrite (refresh_200 st response data token H200 Hjson Hmem).
    destruct (onTokenRefresh (config (this st))) as [cb|] eqn:Hcb.
    2:{ apply settled_granted. by left. }
    destruct (truthy token) eqn:Htruthy.
    2:{ apply settled_granted. by right. }
    destruct (cb token) as [e|] eqn:Hcall.
    + by apply (settled_thrown st token cb e).
    + by apply (settled_notified st token cb).
  - destruct (decide (status response = 401)) as [H401|H401].
    + rewrite (refresh_401 st response H401). apply settled_cleared.
    + rewrite (refresh_other_status st response H200 H401). apply settled_cleared.
Qed.

Lemma login_run st :
  login st = (Normal tt, log (EvAssign (getLoginUrl (this st) (href st))) st).
Proof. reflexivity. Qed.

Lemma checkAccessToken_this st :
  this (checkAccessToken st).2 = this st ∧ cookies (checkAccessToken st).2 = cookies st.
Proof.
  rewrite checkAccessToken_run.
  destruct (truthy _); [by destruct (onLoginSuccess _)|by destruct (onLoginRequired _)].
Qed.

Lemma report_this e st : this (report e st).2 = this st ∧ cookies (report e st).2 = cookies st.
Proof. rewrite report_run. by destruct (onError _). Qed.

(** ** [init] is [refresh] followed by notifications *)

Lemma init_this net st : this (init net st).2 = this (refresh net st).2.
Proof.
  rewrite init_run. destruct (refresh net st) as [[[]|e] st1]; cbn [snd].
  - pose proof (checkAccessToken_this st1) as [Hcheck _].
    destruct (checkAccessToken st1) as [[[]|e] st2]; cbn [snd] in *; [done|].
    by rewrite (proj1 (report_this e st2)).
  - apply report_this.
Qed.

(** X1: [init] leaves the instance, and so the token, and the cookie jar
    exactly as the [refresh] it runs leaves them: what it adds is
    notifications only. *)
Theorem init_state_is_refresh_state st net :
  this (init net st).2 = this (refresh net st).2 ∧
  cookies (init net st).2 = cookies (refresh net st).2 ∧
  (getAccessToken (init net st).2).1 = (getAccessToken (refresh net st).2).1 ∧
  (hasLoggedInBefore (init net st).2).1 = (hasLoggedInBefore (refresh net st).2).1.
Proof.
  split; [apply init_this|]. split; [apply init_cookies|].
  rewrite !getAccessToken_run, !hasLoggedInBefore_run. cbn [fst].
  by rewrite init_this, init_cookies.
Qed.

(** ** Invariants of a session *)

Lemma step_this_cases st o :
  this (step st o) = this st ∨
  ∃ net, (o = OpRefresh net ∨ o = OpInit net) ∧ this (step st o) = this (refresh net st).2.
Proof.
  destruct o as [| |net|net| |]; cbn [step].
  - by left.
  - by left.
  - right. exists net. split; [by right|]. apply init_this.
  - right. exists net. split; [by left|done].
  - by left.
  - left. rewrite logout_run. destruct (onLogout _) as [cb|]; [|done]. by destruct (cb tt).
Qed.

Lemma refresh_token_implies_hint st net : token_implies_hint (refresh net st).2.
Proof.
  unfold token_implies_hint. generalize (refresh_settled st net).
  generalize (refresh net st). intros r Hr.
  destruct Hr; cbn [snd]; unfold granted; page; try done;
    intros _; rewrite lookup_insert_eq; by eexists.
Qed.

(** X2: whoever holds a token has the session-hint cookie. The property holds
    on a fresh page and every call keeps it, so during a session that started
    fresh [getAccessToken] returns something other than [undefined] only if
    [hasLoggedInBefore] returns true. *)
Theorem token_only_with_hint cfg location ops :
  (∀ st o, token_implies_hint st → token_implies_hint (step st o)) ∧
  token_implies_hint (run (fresh cfg location) ops) ∧
  ((getAccessToken (run (fresh cfg location) ops)).1 ≠ Normal VUndefined →
   (hasLoggedInBefore (run (fresh cfg location) ops)).1 = Normal true).
Proof.
  assert (Hstep : ∀ st o, token_implies_hint st → token_implies_hint (step st o)).
  { intros st o Hst. unfold token_implies_hint.
    destruct (step_this_cases st o) as [Hsame|(net & Ho & Hthis)].
    - rewrite Hsame, step_cookies. intros Htoken.
      destruct (op_grants o); [rewrite lookup_insert_eq; by eexists|by apply Hst].
    - rewrite Hthis. intros Htoken.
      pose proof (refresh_token_implies_hint st net Htoken) as Hhint.
      rewrite step_cookies. rewrite refresh_cookies in Hhint.
      replace (op_grants o) with (grants net); [done|].
      by destruct Ho as [-> | ->]. }
  assert (Hrun : ∀ st, token_implies_hint st → token_implies_hint (run st ops)).
  { induction ops as [|o ops IH]; intros st Hst; [done|].
    cbn [run fold_left]. fold (run (step st o) ops). by apply IH, Hstep. }
  assert (Hfresh : token_implies_hint (run (fresh cfg location) ops)).
  { apply Hrun. by intros []. }
  split; [exact Hstep|]. split; [exact Hfresh|].
  rewrite getAccessToken_run, hasLoggedInBefore_run. cbn [fst]. intros Htoken.
  destruct (Hfresh ltac:(congruence)) as [v ->]. done.
Qed.

Lemma token_only_with_hint_witness :
  let st := run (fresh listening app_href)
              [OpInit (ok_token (VStr "abc123")); OpLogin; OpLogout] in
  (hasLoggedInBefore st).1 = Normal true.
Proof.
  intros st.
  apply (proj2 (proj2 (token_only_with_hint listening app_href
           [OpInit (ok_token (VStr "abc123")); OpLogin; OpLogout]))).
  vm_compute. discriminate.
Defined.

(** X3: the cookie jar is only ever touched at [already-logged], and what is
    written there is ["true"]: every other cookie is as it was after any
    sequence of calls, and no token is ever written to a cookie. *)
Theorem only_hint_cookie_written st ops :
  (∀ name, name ≠ ALREADY_LOGGED_COOKIE → cookies (run st ops) !! name = cookies st !! name) ∧
  (cookies (run st ops) !! ALREADY_LOGGED_COOKIE = cookies st !! ALREADY_LOGGED_COOKIE
   ∨ cookies (run st ops) !! ALREADY_LOGGED_COOKIE = Some "true").
Proof.
  revert st. induction ops as [|o ops IH]; intros st; [by split; [|left]|].
  cbn [run fold_left]. fold (run (step st o) ops).
  destruct (IH (step st o)) as [Hother Hhint]. rewrite step_cookies in Hother, Hhint.
  split.
  - intros name Hname. rewrite (Hother name Hname).
    destruct (op_grants o); [by rewrite lookup_insert_ne|done].
  - destruct Hhint as [Hsame|Htrue]; [|by right]. rewrite Hsame.
    destruct (op_grants o); [right; by rewrite lookup_insert_eq|by left].
Qed.

(** The two reads are transparent: dropping every [getAccessToken] and
    [hasLoggedInBefore] call from a sequence of calls leaves the page the
    sequence ends in unchanged. *)
Lemma reads_are_transparent st ops :
  run st ops = run st (List.filter (λ o, negb (is_read o)) ops).
Proof.
  revert st. induction ops as [|o ops IH]; intros st; [done|].
  cbn [run fold_left List.filter]. fold (run (step st o) ops).
  destruct o; cbn [is_read negb]; cbn [run fold_left]; solve [apply IH].
Qed.

Lemma same_host_refl st : same_host st st.
Proof. done. Qed.

Lemma same_host_trans st1 st2 st3 : same_host st1 st2 → same_host st2 st3 → same_host st1 st3.
Proof. unfold same_host. intros (-> & -> & ->) (-> & -> & ->). done. Qed.

Lemma same_host_urls st st' :
  same_host st st' →
  getRefreshUrl (this st') = getRefreshUrl (this st) ∧
  getLoginUrl (this st') (href st') = getLoginUrl (this st) (href st) ∧
  getLogoutUrl (this st') = getLogoutUrl (this st).
Proof.
  intros (Hcfg & Hbase & Hhref). unfold getRefreshUrl, getLoginUrl, getLogoutUrl.
  by rewrite Hcfg, Hbase, Hhref.
Qed.

Lemma step_same_host st o : same_host st (step st o).
Proof.
  destruct o as [| |net|net| |]; cbn [step]; try done.
  - pose proof (init_this net st) as Hthis.
    destruct (refresh_frame st net) as [(Hcfg & Hbase & Hhref) _].
    unfold same_host. rewrite Hthis. split; [done|]. split; [done|].
    rewrite init_run.
    assert (Hreport : ∀ e st', href (report e st').2 = href st').
    { intros e st'. rewrite report_run. by destruct (onError _). }
    destruct (refresh net st) as [[[]|e] st1]; cbn [snd] in *; [|by rewrite Hreport].
    assert (Hcheck : href (checkAccessToken st1).2 = href st1).
    { rewrite checkAccessToken_run.
      destruct (truthy _); [by destruct (onLoginSuccess _)|by destruct (onLoginRequired _)]. }
    destruct (checkAccessToken st1) as [[[]|e] st2]; cbn [snd] in *; [congruence|].
    rewrite Hreport. congruence.
  - apply refresh_frame.
  - rewrite logout_run. destruct (onLogout _) as [cb|]; [|done]. by destruct (cb tt).
Qed.

Lemma run_same_host st ops : same_host st (run st ops).
Proof.
  revert st. induction ops as [|o ops IH]; intros st; [done|].
  cbn [run fold_left]. fold (run (step st o) ops).
  eapply same_host_trans; [apply step_same_host|apply IH].
Qed.

(** What [refresh] makes of the instance depends on the answer and on the
    configuration, not on the token held before. *)
Lemma refresh_this_independent st st' net :
  same_host st st' → this (refresh net st').2 = this (refresh net st).2.
Proof.
  intros (Hcfg & Hbase & _).
  assert (Hstore : ∀ v x x', config (this x') = config (this x) →
    this_baseUrl (this x') = this_baseUrl (this x) →
    this (store_token v x') = this (store_token v x)).
  { intros v x x' H1 H2. unfold store_token. cbn [this]. by rewrite H1, H2. }
  assert (Hclear : this (store_token VUndefined (fetched st'))
                   = this (store_token VUndefined (fetched st))) by by apply Hstore.
  assert (Hgrant : ∀ token, this (granted token st') = this (granted token st)).
  { intros token. unfold granted. rewrite !this_store_cookie. by apply Hstore. }
  destruct net as [e|response]; [exact Hclear|].
  destruct (decide (status response = 200)) as [H200|H200].
  - destruct (json response) as [e|data] eqn:Hjson.
    { by rewrite !(refresh_200_invalid _ response e H200 Hjson). }
    destruct (member_accessToken data) as [token|e] eqn:Hmem.
    2:{ by rewrite !(refresh_200_unreadable _ response data e H200 Hjson Hmem). }
    rewrite !(refresh_200 _ response data token H200 Hjson Hmem), Hcfg.
    destruct (onTokenRefresh (config (this st))) as [cb|]; [|apply Hgrant].
    destruct (truthy token); [|apply Hgrant].
    destruct (cb token); cbn [snd].
    + apply Hstore; by rewrite !this_log, Hgrant.
    + by rewrite !this_log, Hgrant.
  - destruct (decide (status response = 401)) as [H401|H401].
    + by rewrite !(refresh_401 _ response H401).
    + by rewrite !(refresh_other_status _ response H200 H401).
Qed.

(** ** The last answer decides the token *)

(** After any sequence of calls the instance is what a single [refresh] with
    the answer to the last refresh request makes of the starting page. *)
Lemma run_this_last_answer st ops :
  this (run st ops) =
  match last_answer ops with
  | Some net => this (refresh net st).2
  | None => this st
  end.
Proof.
  unfold last_answer.
  assert (Hgen : ∀ ops cur acc, same_host st cur →
    this cur = match acc with Some net => this (refresh net st).2 | None => this st end →
    this (run cur ops) =
    match fold_left (λ acc o, match o with
                              | OpInit net | OpRefresh net => Some net
                              | _ => acc
                              end) ops acc with
    | Some net => this (refresh net st).2
    | None => this st
    end).
  { clear ops. induction ops as [|o ops IH]; intros cur acc Hhost Hcur; [done|].
    cbn [run fold_left]. fold (run (step cur o) ops). apply IH.
    - eapply same_host_trans; [exact Hhost|apply step_same_host].
    - destruct o as [| |net|net| |]; cbn [step]; try done.
      + rewrite (init_this net cur).
        by apply refresh_this_independent.
      + by apply refresh_this_independent.
      + rewrite logout_run. destruct (onLogout _) as [cb|]; [|done]. by destruct (cb tt). }
  by apply Hgen.
Qed.

Lemma refresh_token_quiet st net :
  (∀ cb token, onTokenRefresh (config (this st)) = Some cb → cb token = None) →
  accessToken (this (refresh net st).2) = answer_token net.
Proof.
  intros Hquiet. destruct net as [e|response]; [done|]. cbn [answer_token].
  destruct (decide (status response = 200)) as [H200|H200].
  - rewrite H200. cbn [Z.eqb Pos.eqb].
    destruct (json response) as [e|data] eqn:Hjson.
    { by rewrite (refresh_200_invalid st response e H200 Hjson). }
    destruct (member_accessToken data) as [token|e] eqn:Hmem.
    2:{ by rewrite (refresh_200_unreadable st response data e H200 Hjson Hmem). }
    rewrite (refresh_200 st response data token H200 Hjson Hmem).
    destruct (onTokenRefresh (config (this st))) as [cb|] eqn:Hcb; [|done].
    destruct (truthy token); [|done]. by rewrite (Hquiet cb token eq_refl).
  - destruct (Z.eqb_spec (status response) 200) as [|_]; [done|].
    destruct (decide (status response = 401)) as [H401|H401].
    + by rewrite (refresh_401 st response H401).
    + by rewrite (refresh_other_status st response H200 H401).
Qed.

(** For calls made one after the other, each settled before the next: with a
    token-refreshed callback that returns, the token held at the end is
    decided by the answer to the last refresh request alone. *)
Theorem last_answer_decides_token st ops :
  (∀ cb token, onTokenRefresh (config (this st)) = Some cb → cb token = None) →
  (getAccessToken (run st ops)).1 =
  Normal match last_answer ops with
         | Some net => answer_token net
         | None => accessToken (this st)
         end.
Proof.
  intros Hquiet. rewrite getAccessToken_run. cbn [fst]. rewrite run_this_last_answer.
  destruct (last_answer ops) as [net|]; [|done]. by rewrite refresh_token_quiet.
Qed.

Lemma last_answer_decides_token_witness :
  (getAccessToken
     (run (fresh listening app_href)
        [OpInit (ok_token (VStr "abc123")); OpGetAccessToken;
         OpRefresh (ok_token (VStr "def456")); OpLogin;
         OpRefresh (answer 401 "Unauthorized" (BodyJson VNull)); OpLogout])).1
  = Normal VUndefined.
Proof.
  apply (last_answer_decides_token (fresh listening app_href)
           [OpInit (ok_token (VStr "abc123")); OpGetAccessToken;
            OpRefresh (ok_token (VStr "def456")); OpLogin;
            OpRefresh (answer 401 "Unauthorized" (BodyJson VNull)); OpLogout]).
  intros cb token H. injection H as <-. reflexivity.
Defined.

(** ** Requests and navigations *)

Lemma count_events_app p evs1 evs2 :
  count_events p (evs1 ++ evs2) = (count_events p evs1 + count_events p evs2)%nat.
Proof. unfold count_events. by rewrite List.filter_app, length_app. Qed.

Lemma notifications_uncounted p evs :
  (∀ ev, p ev = true → is_notification ev = false) →
  Forall (λ ev, is_notification ev = true) evs → count_events p evs = 0%nat.
Proof.
  intros Hp Hevs. induction Hevs as [|ev evs Hev _ IH]; [done|].
  unfold count_events in *. cbn [List.filter].
  destruct (p ev) eqn:Hpev; [|exact IH]. apply Hp in Hpev. congruence.
Qed.

Lemma notifications_under_base base evs :
  Forall (λ ev, is_notification ev = true) evs → Forall (under_base base) evs.
Proof. intros H. apply (Forall_impl _ _ _ H). by intros []. Qed.

Lemma notified_notification {A : Type} (cb : option (callback A)) ev :
  is_notification ev = true → Forall (λ ev, is_notification ev = true) (notified cb ev).
Proof. intros H. destruct cb; cbn [notified]; by repeat constructor. Qed.

Lemma getRefreshUrl_under_base self :
  ∃ query, getRefreshUrl self = this_baseUrl self +:+ "/auth/refresh" +:+ query.
Proof.
  unfold getRefreshUrl, AUTH_REFRESH_PATH.
  destruct (getAdditionalAuthParams (config self)) as [provider|].
  - cbv zeta. case_bool_decide.
    + exists "". by rewrite append_empty_r.
    + eexists. by rewrite append_assoc.
  - exists "". by rewrite append_empty_r.
Qed.

Lemma refresh_events st net :
  ∃ tail, trace (refresh net st).2
          = trace st ++ EvFetch (getRefreshUrl (this st)) "POST" "include" :: tail ∧
    Forall (λ ev, is_notification ev = true) tail.
Proof.
  generalize (refresh_settled st net). generalize (refresh net st). intros r Hr.
  destruct Hr; cbn [snd]; unfold granted, fetched; page.
  - by exists [].
  - by exists [].
  - exists [EvTokenRefresh token]. rewrite <- app_assoc. split; [done|]. by repeat constructor.
  - exists [EvTokenRefresh token]. rewrite <- app_assoc. split; [done|]. by repeat constructor.
Qed.

Lemma init_events st net :
  ∃ extra, trace (init net st).2 = trace (refresh net st).2 ++ extra ∧
    Forall (λ ev, is_notification ev = true) extra.
Proof.
  rewrite init_run. destruct (refresh net st) as [[[]|e] st1]; cbn [snd].
  - pose proof (checkAccessToken_frame st1) as [Hcheck _].
    assert (Hsel : Forall (λ ev, is_notification ev = true)
      (if truthy (accessToken (this st1))
       then notified (onLoginSuccess (config (this st1))) EvLoginSuccess
       else notified (onLoginRequired (config (this st1))) EvLoginRequired)).
    { destruct (truthy _); by apply notified_notification. }
    destruct (checkAccessToken st1) as [[[]|e] st2]; cbn [snd] in *.
    + eexists. split; [exact Hcheck|exact Hsel].
    + eexists. rewrite report_frame, Hcheck, <- app_assoc. split; [done|].
      apply Forall_app. split; [exact Hsel|by apply notified_notification].
  - eexists. rewrite report_frame. split; [done|]. by apply notified_notification.
Qed.

Lemma step_events st o :
  ∃ evs, trace (step st o) = trace st ++ evs ∧
    count_events is_fetch evs = (if refreshes o then 1 else 0)%nat ∧
    (count_events is_assign evs ≤ (if navigates o then 1 else 0))%nat ∧
    Forall (under_base (this_baseUrl (this st))) evs.
Proof.
  assert (Hfetch : ∀ ev, is_fetch ev = true → is_notification ev = false) by by intros [].
  assert (Hassign : ∀ ev, is_assign ev = true → is_notification ev = false) by by intros [].
  assert (Hrefresh : ∀ tail,
    Forall (λ ev, is_notification ev = true) tail →
    count_events is_fetch (EvFetch (getRefreshUrl (this st)) "POST" "include" :: tail) = 1%nat ∧
    (count_events is_assign (EvFetch (getRefreshUrl (this st)) "POST" "include" :: tail) ≤ 0)%nat ∧
    Forall (under_base (this_baseUrl (this st)))
      (EvFetch (getRefreshUrl (this st)) "POST" "include" :: tail)).
  { intros tail Htail.
    change (EvFetch (getRefreshUrl (this st)) "POST" "include" :: tail)
      with ([EvFetch (getRefreshUrl (this st)) "POST" "include"] ++ tail).
    rewrite !count_events_app, !(notifications_uncounted _ tail) by done.
    split; [done|]. split; [done|].
    apply Forall_app. split; [|by apply notifications_under_base].
    constructor; [|done]. split; [apply getRefreshUrl_under_base|done]. }
  destruct o as [| |net|net| |]; cbn [step refreshes navigates].
  - exists []. by rewrite app_nil_r.
  - exists []. by rewrite app_nil_r.
  - destruct (init_events st net) as (extra & Hinit & Hextra).
    destruct (refresh_events st net) as (tail & Htrace & Htail).
    exists (EvFetch (getRefreshUrl (this st)) "POST" "include" :: tail ++ extra).
    split; [by rewrite Hinit, Htrace, <- app_assoc|].
    apply Hrefresh. by apply Forall_app.
  - destruct (refresh_events st net) as (tail & Htrace & Htail).
    eexists. split; [exact Htrace|]. by apply Hrefresh.
  - rewrite login_run. eexists. split; [done|]. split; [done|]. split; [done|].
    constructor; [|done]. left. rewrite getLoginUrl_spec. unfold login_redirect.
    by eexists.
  - rewrite logout_run. destruct (onLogout (config (this st))) as [cb|].
    + destruct (cb tt); cbn [snd]; page.
      * exists [EvLogout]. split; [done|]. split; [done|]. split; [cbn; lia|].
        by repeat constructor.
      * exists [EvLogout; EvAssign (getLogoutUrl (this st))]. rewrite <- app_assoc.
        split; [done|]. split; [done|]. split; [done|].
        constructor; [done|]. constructor; [|done]. by right.
    + eexists. split; [done|]. split; [done|]. split; [done|].
      constructor; [|done]. by right.
Qed.

(** X5: a sequence of calls issues exactly one request per [refresh] or
    [init], a POST with credentials to the refresh endpoint under the base
    URL, and at most one navigation per [login] or [logout], to the login or
    the logout page under the base URL; the reads contact nothing, [refresh]
    and [init] never navigate, [login] and [logout] never call the network. *)
Theorem requests_and_navigations st ops :
  let evs := since st (run st ops) in
  trace (run st ops) = trace st ++ evs ∧
  count_events is_fetch evs = count_ops refreshes ops ∧
  (count_events is_assign evs ≤ count_ops navigates ops)%nat ∧
  Forall (under_base (this_baseUrl (this st))) evs.
Proof.
  cbv zeta.
  assert (Hgen : ∃ evs, trace (run st ops) = trace st ++ evs ∧
    count_events is_fetch evs = count_ops refreshes ops ∧
    (count_events is_assign evs ≤ count_ops navigates ops)%nat ∧
    Forall (under_base (this_baseUrl (this st))) evs).
  { revert st. induction ops as [|o ops IH]; intros st.
    { exists []. by rewrite app_nil_r. }
    cbn [run fold_left]. fold (run (step st o) ops).
    destruct (step_events st o) as (evs1 & Htrace1 & Hfetch1 & Hassign1 & Hbase1).
    destruct (IH (step st o)) as (evs2 & Htrace2 & Hfetch2 & Hassign2 & Hbase2).
    destruct (step_same_host st o) as (_ & Hbase & _). rewrite Hbase in Hbase2.
    exists (evs1 ++ evs2). rewrite Htrace2, Htrace1, <- app_assoc. split; [done|].
    rewrite !count_events_app, Hfetch1, Hfetch2. unfold count_ops in *.
    cbn [List.filter]. split; [|split; [|by apply Forall_app]].
    - destruct (refreshes o); cbn [length]; lia.
    - destruct (navigates o); cbn [length]; lia. }
  destruct Hgen as (evs & Htrace & Hrest). by rewrite (since_app st _ evs Htrace).
Qed.

(** ** A token-refreshed callback that throws *)

(** X6: when a 200 brings a truthy token and the token-refreshed callback
    throws, [refresh] rejects with what the callback threw and the token is
    cleared again, but the session-hint cookie, written before the call,
    stays: the page has the hint and no token. Within [init] the exception
    goes to [onError]. *)
Theorem token_callback_failure st response data token cb e :
  status response = 200 → json response = BodyJson data →
  member_accessToken data = Normal token → truthy token = true →
  onTokenRefresh (config (this st)) = Some cb → cb token = Some e →
  let r := refresh (FetchResolves response) st in
  r.1 = Throw e ∧
  (getAccessToken r.2).1 = Normal VUndefined ∧
  (hasLoggedInBefore r.2).1 = Normal true ∧
  trace r.2 = trace st ++ [EvFetch (getRefreshUrl (this st)) "POST" "include";
                           EvTokenRefresh token] ∧
  trace (init (FetchResolves response) st).2
  = trace r.2 ++ notified (onError (config (this st))) (EvError e).
Proof.
  intros H200 Hjson Hmem Htruthy Hcb Hcall r.
  assert (Hr : r = (Throw e, store_token VUndefined
                               (log (EvTokenRefresh token) (granted token st)))).
  { subst r. by rewrite (refresh_200 st response data token H200 Hjson Hmem), Hcb, Htruthy, Hcall. }
  assert (Hinit : init (FetchResolves response) st = report e r.2).
  { rewrite init_run. fold r. by rewrite Hr. }
  rewrite Hinit, report_frame. rewrite Hr. cbn [fst snd].
  split; [done|]. split; [done|]. split.
  - rewrite hasLoggedInBefore_run. unfold granted. page. by rewrite lookup_insert_eq.
  - unfold granted, fetched. page. by rewrite <- app_assoc.
Qed.

Lemma token_callback_failure_witness :
  let r := refresh (ok_token (VStr "abc123")) (fresh failing_refresh app_href) in
  r.1 = Throw boom ∧
  (getAccessToken r.2).1 = Normal VUndefined ∧
  (hasLoggedInBefore r.2).1 = Normal true ∧
  trace r.2 = [EvFetch "https://bkper.app/auth/refresh" "POST" "include";
               EvTokenRefresh (VStr "abc123")] ∧
  trace (init (ok_token (VStr "abc123")) (fresh failing_refresh app_href)).2
  = trace r.2 ++ [EvError boom].
Proof.
  apply (token_callback_failure (fresh failing_refresh app_href)
           {| status := 200; statusText := "OK";
              json := BodyJson (VObj [("accessToken", VStr "abc123")]) |}
           (VObj [("accessToken", VStr "abc123")]) (VStr "abc123") (throws boom) boom);
    reflexivity.
Defined.

(** ** The order of the notifications of [init] *)

(** X7: with callbacks that return, [init] resolves and what it adds to the
    trace is, in this order: the refresh request; then, if [refresh] resolved
    with a truthy token, token-refreshed and login-succeeded; if it resolved
    without one, login-required alone; if it rejected, the error notification
    alone. Each notification appears only if its callback is configured. *)
Theorem init_notification_order st net :
  quiet (config (this st)) →
  (init net st).1 = Normal tt ∧
  trace (init net st).2 =
  trace st ++ EvFetch (getRefreshUrl (this st)) "POST" "include" ::
    match (refresh net st).1 with
    | Normal _ =>
        let token := accessToken (this (refresh net st).2) in
        if truthy token then
          notified (onTokenRefresh (config (this st))) (EvTokenRefresh token)
          ++ notified (onLoginSuccess (config (this st))) EvLoginSuccess
        else notified (onLoginRequired (config (this st))) EvLoginRequired
    | Throw e => notified (onError (config (this st))) (EvError e)
    end.
Proof.
  intros (Hsuccess & Hrequired & Hrefresh & Herror). rewrite init_run. cbv zeta.
  assert (Hreport : ∀ e st', config (this st') = config (this st) →
    report e st' = (Normal tt, match onError (config (this st)) with
                               | Some _ => log (EvError e) st'
                               | None => st'
                               end)).
  { intros e st' Hcfg. rewrite report_run, Hcfg.
    destruct (onError (config (this st))) as [cb|] eqn:Hcb; [|done].
    by rewrite (Herror cb e eq_refl). }
  assert (Hcheck : ∀ st', config (this st') = config (this st) →
    checkAccessToken st' = (Normal tt,
      if truthy (accessToken (this st'))
      then match onLoginSuccess (config (this st)) with
           | Some _ => log EvLoginSuccess st'
           | None => st'
           end
      else match onLoginRequired (config (this st)) with
           | Some _ => log EvLoginRequired st'
           | None => st'
           end)).
  { intros st' Hcfg. rewrite checkAccessToken_run, Hcfg. destruct (truthy _).
    - destruct (onLoginSuccess (config (this st))) as [cb|] eqn:Hcb; [|done].
      by rewrite (Hsuccess cb eq_refl).
    - destruct (onLoginRequired (config (this st))) as [cb|] eqn:Hcb; [|done].
      by rewrite (Hrequired cb eq_refl). }
  generalize (refresh_settled st net). generalize (refresh net st). intros r Hr.
  destruct Hr as [c|token Hno|token cb Hcb Htruthy Hcall|token cb e Hcb Htruthy Hcall];
    cbn [fst snd].
  - destruct c as [[]|e].
    + rewrite Hcheck by done. cbn [fst snd]. page. cbn [truthy].
      split; [done|]. unfold fetched.
      destruct (onLoginRequired (config (this st))); page; [|done].
      by rewrite <- app_assoc.
    + rewrite Hreport by done. cbn [fst snd]. split; [done|]. unfold fetched.
      destruct (onError (config (this st))); page; [|done]. by rewrite <- app_assoc.
  - rewrite Hcheck by done. cbn [fst snd]. unfold granted, fetched. page.
    split; [done|]. destruct Hno as [Hnone|Hfalsy].
    + rewrite Hnone. cbn [notified app].
      destruct (truthy token);
        [destruct (onLoginSuccess (config (this st)))
        |destruct (onLoginRequired (config (this st)))]; page; try done;
        by rewrite <- app_assoc.
    + rewrite Hfalsy. destruct (onLoginRequired (config (this st))); page; [|done].
      by rewrite <- app_assoc.
  - rewrite Hcheck by done. cbn [fst snd]. unfold granted, fetched. page.
    rewrite Htruthy, Hcb. cbn [notified]. split; [done|].
    destruct (onLoginSuccess (config (this st))); page; rewrite <- !app_assoc; done.
  - by rewrite (Hrefresh cb token Hcb) in Hcall.
Qed.

Lemma init_notification_order_witness :
  (init (ok_token (VStr "abc123")) (fresh listening app_href)).1 = Normal tt ∧
  trace (init (ok_token (VStr "abc123")) (fresh listening app_href)).2
  = [EvFetch "https://bkper.app/auth/refresh" "POST" "include";
     EvTokenRefresh (VStr "abc123"); EvLoginSuccess].
Proof.
  apply (init_notification_order (fresh listening app_href) (ok_token (VStr "abc123"))).
  split; [|split; [|split]].
  - intros cb H. injection H as <-. reflexivity.
  - intros cb H. injection H as <-. reflexivity.
  - intros cb token H. injection H as <-. reflexivity.
  - intros cb e H. injection H as <-. reflexivity.
Defined.

(** ** The base URL *)

(** X8: the base URL chosen at construction is the configured one, or the
    default when none or an empty one is configured; it is never empty, and
    no sequence of calls changes it or the configuration. *)
Theorem base_url_is_fixed cfg location ops :
  let st := run (fresh cfg location) ops in
  this_baseUrl (this st) ≠ "" ∧
  this_baseUrl (this st) =
    match baseUrl cfg with
    | Some u => if bool_decide (u = "") then "https://bkper.app" else u
    | None => "https://bkper.app"
    end ∧
  config (this st) = cfg ∧
  getLogoutUrl (this st) = this_baseUrl (constructor cfg) +:+ "/auth/logout".
Proof.
  cbv zeta. destruct (run_same_host (fresh cfg location) ops) as (Hcfg & Hbase & _).
  unfold getLogoutUrl. rewrite Hcfg, Hbase. cbn [fresh this constructor config this_baseUrl].
  split; [|done].
  destruct (baseUrl cfg) as [u|]; [|done]. by case_bool_decide.
Qed.

(** ** The extra parameters in the two URLs *)

Lemma formUnreserved_uriUnreserved c :
  Uri.formUnreserved c = true → Uri.uriUnreserved c = true.
Proof. destruct c as [[] [] [] [] [] [] [] []]; by vm_compute. Qed.

Lemma formEncode_plain s : plain s = true → Uri.formEncode s = s.
Proof.
  unfold plain. induction s as [|c s IH]; [done|].
  cbn [all_ascii Uri.formEncode]. intros [Hc Hs]%andb_true_iff.
  by rewrite Hc, (IH Hs).
Qed.

Lemma encodeURIComponent_plain s : plain s = true → Uri.encodeURIComponent s = s.
Proof.
  unfold plain. induction s as [|c s IH]; [done|].
  cbn [all_ascii Uri.encodeURIComponent]. intros [Hc Hs]%andb_true_iff.
  by rewrite (formUnreserved_uriUnreserved c Hc), (IH Hs).
Qed.

Lemma query_pairs_plain entries :
  forallb plain_entry entries = true → entries ≠ [] →
  query_pairs entries = "&" +:+ Uri.serialize entries.
Proof.
  induction entries as [|[k v] rest IH]; [done|].
  cbn [forallb]. intros [[Hk Hv]%andb_true_iff Hrest]%andb_true_iff _.
  cbn [fst snd] in Hk, Hv. cbn [query_pairs Uri.serialize].
  rewrite (formEncode_plain k Hk), (formEncode_plain v Hv), (encodeURIComponent_plain v Hv).
  destruct rest as [|entry rest]; [done|]. by rewrite (IH Hrest).
Qed.

(** X9: when the keys and values of the extra parameters are made of
    letters, digits and [* - . _] only, and there is at least one, the login
    URL and the refresh URL carry them as the same query string: after [?] in
    the refresh URL, after [&] behind [returnUrl] in the login URL. *)
Theorem plain_params_agree self entries :
  extra_params self = entries → entries ≠ [] → forallb plain_entry entries = true →
  getRefreshUrl self
  = this_baseUrl self +:+ "/auth/refresh" +:+ "?" +:+ Uri.serialize entries ∧
  ∀ location,
    getLoginUrl self location
    = this_baseUrl self +:+ "/auth/login" +:+ "?returnUrl=" +:+
      Uri.encodeURIComponent location +:+ "&" +:+ Uri.serialize entries.
Proof.
  intros Hextra Hne Hplain. split.
  - unfold getRefreshUrl, AUTH_REFRESH_PATH. unfold extra_params in Hextra.
    destruct (getAdditionalAuthParams (config self)) as [provider|]; [|congruence].
    cbv zeta. rewrite Hextra. case_bool_decide as Hq.
    + by apply serialize_empty_iff in Hq.
    + by rewrite append_assoc.
  - intros location. rewrite getLoginUrl_spec. unfold login_redirect.
    by rewrite Hextra, (query_pairs_plain entries Hplain Hne).
Qed.

Lemma plain_params_agree_witness :
  getRefreshUrl (constructor tenant_acme)
  = "https://auth.example" +:+ "/auth/refresh" +:+ "?" +:+ "tenant=acme" ∧
  ∀ location,
    getLoginUrl (constructor tenant_acme) location
    = "https://auth.example" +:+ "/auth/login" +:+ "?returnUrl=" +:+
      Uri.encodeURIComponent location +:+ "&" +:+ "tenant=acme".
Proof.
  apply (plain_params_agree (constructor tenant_acme) [("tenant", "acme")]).
  - reflexivity.
  - discriminate.
  - reflexivity.
Defined.

Lemma count_char_append c (a b : string) :
  count_char c (a +:+ b) = (count_char c a + count_char c b)%nat.
Proof.
  induction a as [|d a IH]; [done|].
  rewrite append_cons. cbn [count_char]. rewrite IH. lia.
Qed.

Lemma all_ascii_count p c s :
  p c = false → all_ascii p s = true → count_char c s = 0%nat.
Proof.
  intros Hc. induction s as [|d s IH]; [done|].
  cbn [all_ascii count_char]. intros [Hd Hs]%andb_true_iff. rewrite (IH Hs).
  destruct (decide (c = d)) as [->|]; [congruence|done].
Qed.

Lemma percentEncode_form c : all_ascii form_char (Uri.percentEncode c) = true.
Proof. destruct c as [[] [] [] [] [] [] [] []]; vm_compute; reflexivity. Qed.

Lemma formEncode_form s : all_ascii form_char (Uri.formEncode s) = true.
Proof.
  induction s as [|c s IH]; [reflexivity|].
  cbn [Uri.formEncode]. rewrite all_ascii_append, IH, andb_true_r.
  destruct (Uri.formUnreserved c) eqn:Hc.
  - cbn [all_ascii]. unfold form_char. by rewrite Hc.
  - destruct (decide (c = " "%char)); [reflexivity|apply percentEncode_form].
Qed.

Lemma serialize_separators entries :
  count_char "&" (Uri.serialize entries) = (length entries - 1)%nat ∧
  count_char "=" (Uri.serialize entries) = length entries.
Proof.
  assert (Hamp : ∀ s, count_char "&" (Uri.formEncode s) = 0%nat).
  { intros s. by apply (all_ascii_count form_char), formEncode_form. }
  assert (Heq : ∀ s, count_char "=" (Uri.formEncode s) = 0%nat).
  { intros s. by apply (all_ascii_count form_char), formEncode_form. }
  induction entries as [|[k v] rest [IHamp IHeq]]; [done|].
  cbn [Uri.serialize length]. rewrite !count_char_append, !Hamp, !Heq.
  destruct rest as [|entry rest]; [done|].
  rewrite !count_char_append, IHamp, IHeq. cbn [length count_char].
  split; repeat case_decide; try done; lia.
Qed.

Lemma query_pairs_separators entries :
  count_char "&" (query_pairs entries)
  = (length entries + count_in_keys "&" entries)%nat.
Proof.
  assert (Hamp : ∀ s, count_char "&" (Uri.encodeURIComponent s) = 0%nat).
  { intros s. by apply (all_ascii_count component_char), encodeURIComponent_component. }
  induction entries as [|[k v] rest IH]; [done|].
  cbn [query_pairs length count_in_keys]. rewrite !count_char_append, Hamp, IH.
  cbn [count_char]. repeat case_decide; try done; lia.
Qed.

(** X10: what the location and the extra parameters can do to the shape of
    the URLs. In the login URL the encoded location and the encoded values
    bring no [&]: beyond those of the base URL there is one per entry, plus
    those inside the keys, which are inserted as they are. In the refresh URL
    neither keys nor values bring any: the entries are separated by one [&]
    each. *)
Theorem query_separators self location :
  count_char "&" (getLoginUrl self location)
  = (count_char "&" (this_baseUrl self) + length (extra_params self)
     + count_in_keys "&" (extra_params self))%nat ∧
  count_char "&" (getRefreshUrl self)
  = (count_char "&" (this_baseUrl self) + (length (extra_params self) - 1))%nat.
Proof.
  split.
  - rewrite getLoginUrl_spec. unfold login_redirect.
    rewrite !count_char_append, query_pairs_separators.
    rewrite (all_ascii_count component_char "&" _ eq_refl
               (encodeURIComponent_component location)).
    change (count_char "&" "/auth/login") with 0%nat.
    change (count_char "&" "?returnUrl=") with 0%nat. lia.
  - unfold getRefreshUrl, extra_params, AUTH_REFRESH_PATH.
    destruct (getAdditionalAuthParams (config self)) as [provider|].
    + cbv zeta. case_bool_decide as Hq.
      * apply serialize_empty_iff in Hq as ->. rewrite count_char_append.
        change (count_char "&" "/auth/refresh") with 0%nat. cbn [length]. lia.
      * rewrite !count_char_append, (proj1 (serialize_separators (provider tt))).
        change (count_char "&" "/auth/refresh") with 0%nat.
        change (count_char "&" "?") with 0%nat. lia.
    + rewrite count_char_append. change (count_char "&" "/auth/refresh") with 0%nat.
      cbn [length]. lia.
Qed.

(** ** The return address *)

Lemma unescape_percentEncode c :
  unescape (Uri.hexDigit (Uri.code c / 16)) (Uri.hexDigit (Uri.code c mod 16)) = Some c ∧
  (Uri.uriUnreserved c = true → c ≠ "%"%char).
Proof. destruct c as [[] [] [] [] [] [] [] []]; by vm_compute. Qed.

Lemma unescapeAll_encodeURIComponent s : unescapeAll (Uri.encodeURIComponent s) = Some s.
Proof.
  induction s as [|c s IH]; [reflexivity|].
  cbn [Uri.encodeURIComponent]. destruct (unescape_percentEncode c) as [Hescape Hplain].
  destruct (Uri.uriUnreserved c).
  - rewrite append_cons. cbn [unescapeAll].
    destruct (decide (c = "%"%char)) as [Hc|_]; [by destruct (Hplain eq_refl)|].
    change ("" +:+ Uri.encodeURIComponent s) with (Uri.encodeURIComponent s).
    by rewrite IH.
  - unfold Uri.percentEncode. rewrite !append_cons. cbn [unescapeAll].
    destruct (decide ("%"%char = "%"%char)) as [_|Hne]; [|done].
    change ("" +:+ Uri.encodeURIComponent s) with (Uri.encodeURIComponent s).
    by rewrite Hescape, IH.
Qed.

Lemma encodeURIComponent_inj s1 s2 :
  Uri.encodeURIComponent s1 = Uri.encodeURIComponent s2 → s1 = s2.
Proof.
  intros H. apply (f_equal unescapeAll) in H.
  rewrite !unescapeAll_encodeURIComponent in H. by injection H.
Qed.

Lemma length_append (a b : string) :
  String.length (a +:+ b) = (String.length a + String.length b)%nat.
Proof.
  induction a as [|c a IH]; [done|]. rewrite append_cons. cbn [String.length]. by rewrite IH.
Qed.

Lemma append_inj_r (a b c : string) : a +:+ c = b +:+ c → a = b.
Proof.
  revert b. induction a as [|x a IH]; intros [|y b] H.
  - done.
  - apply (f_equal String.length) in H. rewrite !length_append in H.
    cbn [String.length] in H. lia.
  - apply (f_equal String.length) in H. rewrite !length_append in H.
    cbn [String.length] in H. lia.
  - rewrite !append_cons in H. injection H as -> H. by rewrite (IH b H).
Qed.

(** X11: the login URL tells the pages apart: for one client, two locations
    that give the same login URL are the same location, so the address to
    return to can be read back from [returnUrl]. *)
Theorem login_url_keeps_location self location1 location2 :
  getLoginUrl self location1 = getLoginUrl self location2 → location1 = location2.
Proof.
  rewrite !getLoginUrl_spec. unfold login_redirect. intros H.
  do 3 apply String.app_inj in H.
  by apply append_inj_r, encodeURIComponent_inj in H.
Qed.

Lemma login_url_keeps_location_witness :
  "http://localhost:3000/app?tab=1" = "http://localhost:3000/app?tab=1".
Proof.
  apply (login_url_keeps_location (constructor tenant_acme)
           "http://localhost:3000/app?tab=1" "http://localhost:3000/app?tab=1").
  reflexivity.
Defined.

(** ** Overlapping refresh requests *)

Lemma refresh_in_two_halves net st :
  refresh net st = (refresh_send ;; refresh_arrive net) st.
Proof. by destruct net. Qed.

Lemma refresh_arrive_fetched net st :
  refresh net st = refresh_arrive net (fetched st).
Proof. by destruct net. Qed.

(** What the handling of an answer makes of the instance does not depend on
    the trace or on the token held. *)
Lemma refresh_arrive_this net st st' :
  config (this st') = config (this st) →
  this_baseUrl (this st') = this_baseUrl (this st) →
  this (refresh_arrive net st').2 = this (refresh_arrive net st).2.
Proof.
  intros Hcfg Hbase.
  assert (Hstore : ∀ v x x', config (this x') = config (this x) →
    this_baseUrl (this x') = this_baseUrl (this x) →
    this (store_token v x') = this (store_token v x)).
  { intros v x x' H1 H2. unfold store_token. cbn [this]. by rewrite H1, H2. }
  destruct net as [e|response].
  { cbn. by apply Hstore. }
  unfold refresh_arrive. settle.
  destruct (status response =? 200).
  - destruct (json response) as [e|data]; [cbn; by apply Hstore|].
    destruct (member_accessToken data) as [token|e]; [|cbn; by apply Hstore].
    page. rewrite Hcfg.
    destruct (onTokenRefresh (config (this st))) as [cb|].
    + destruct (truthy token).
      * destruct (cb token); page; [apply Hstore|]; page; try done; by apply Hstore.
      * page. by apply Hstore.
    + page. by apply Hstore.
  - destruct (status response =? 401); cbn; by apply Hstore.
Qed.

Lemma refresh_arrive_as_refresh net st :
  this (refresh_arrive net st).2 = this (refresh net st).2.
Proof. rewrite refresh_arrive_fetched. by apply refresh_arrive_this. Qed.

Lemma step_phase_this_cases st p :
  this (step_phase st p) = this st ∨
  ∃ net, (p = Arrived net ∨ p = Call (OpRefresh net) ∨ p = Call (OpInit net)) ∧
    this (step_phase st p) = this (refresh net st).2.
Proof.
  destruct p as [o| |net| |error]; cbn [step_phase].
  - destruct (step_this_cases st o) as [Hsame|(net & [-> | ->] & Hthis)]; [by left| |];
      right; exists net; auto.
  - by left.
  - right. exists net. split; [by left|]. apply refresh_arrive_as_refresh.
  - left. pose proof (checkAccessToken_this st) as [Hcheck _].
    destruct (checkAccessToken st) as [[[]|e] st']; cbn [snd] in Hcheck; [done|].
    by rewrite (proj1 (report_this e st')).
  - left. apply report_this.
Qed.

(** X4: requests may overlap. Whatever the order in which refresh requests
    are sent, answers handled and other calls made, with a token-refreshed
    callback that returns the token held is decided by the answer handled
    last: the [accessToken] of its body if it is a readable 200, [undefined]
    otherwise; before any answer it is the token held at the start. A call of
    [refresh] that nothing overlaps is a request sent and its answer handled;
    [init] adds [checkAccessToken] or the [catch] block. *)
Theorem last_response_decides_token st phases :
  (∀ cb token, onTokenRefresh (config (this st)) = Some cb → cb token = None) →
  (getAccessToken (run_phases st phases)).1 =
    Normal match last_response phases with
           | Some net => answer_token net
           | None => accessToken (this st)
           end ∧
  (∀ net, run_phases st [Sent; Arrived net] = (refresh net st).2) ∧
  (∀ net, run_phases st [Sent; Arrived net;
                          match (refresh net st).1 with
                          | Normal _ => Checked
                          | Throw e => Caught e
                          end] = (init net st).2).
Proof.
  intros Hquiet. split; [|split].
  - rewrite getAccessToken_run. cbn [fst]. unfold last_response, run_phases.
    assert (Hgen : ∀ phases cur acc,
      config (this cur) = config (this st) →
      accessToken (this cur) = match acc with
                               | Some net => answer_token net
                               | None => accessToken (this st)
                               end →
      accessToken (this (fold_left step_phase phases cur)) =
      match fold_left (λ acc p, match p with
                                | Call (OpInit net) | Call (OpRefresh net) | Arrived net =>
                                    Some net
                                | _ => acc
                                end) phases acc with
      | Some net => answer_token net
      | None => accessToken (this st)
      end).
    { clear phases. induction phases as [|p phases IH]; intros cur acc Hcfg Hcur; [done|].
      cbn [fold_left].
      assert (Hcur_quiet : ∀ cb token,
        onTokenRefresh (config (this cur)) = Some cb → cb token = None).
      { rewrite Hcfg. exact Hquiet. }
      destruct (step_phase_this_cases cur p) as [Hsame|(net & Hp & Hthis)].
      - apply IH; [by rewrite Hsame|]. rewrite Hsame.
        destruct p as [[| |net|net| |]| |net| |error]; try done.
        + cbn [step_phase step] in Hsame. rewrite init_this in Hsame.
          by rewrite <- Hsame, refresh_token_quiet.
        + cbn [step_phase step] in Hsame. by rewrite <- Hsame, refresh_token_quiet.
        + cbn [step_phase] in Hsame. rewrite refresh_arrive_as_refresh in Hsame.
          by rewrite <- Hsame, refresh_token_quiet.
      - apply IH.
        + by rewrite Hthis, refresh_config.
        + rewrite Hthis, refresh_token_quiet by done.
          by destruct Hp as [-> |[-> | ->]]. }
    f_equal. by apply Hgen.
  - intros net. unfold run_phases. cbn [fold_left step_phase].
    by rewrite refresh_in_two_halves.
  - intros net. unfold run_phases. cbn [fold_left step_phase].
    change (refresh_arrive net (refresh_send st).2) with ((refresh_send ;; refresh_arrive net) st).
    rewrite <- refresh_in_two_halves, init_run.
    destruct (refresh net st) as [[[]|e] st1]; cbn [fst snd step_phase]; [|done].
    by destruct (checkAccessToken st1) as [[[]|e] st2].
Qed.

Lemma last_response_decides_token_witness :
  (getAccessToken
     (run_phases (fresh listening app_href)
        [Sent; Sent; Arrived (ok_token (VStr "def456")); Call OpGetAccessToken;
         Arrived (ok_token (VStr "abc123"))])).1
  = Normal (VStr "abc123").
Proof.
  apply (last_response_decides_token (fresh listening app_href)
           [Sent; Sent; Arrived (ok_token (VStr "def456")); Call OpGetAccessToken;
            Arrived (ok_token (VStr "abc123"))]).
  intros cb token H. injection H as <-. reflexivity.
Defined.
